(** * line-notion-dictionary: the webhook pipeline of [src/api/webhook.ts]

    A LINE text message carrying one word is turned into a dictionary entry by
    a language model, validated against a zod schema, written to a Notion
    database and acknowledged to the sender.  This development embeds the
    functions of [src/api/webhook.ts] ([retry], [Schema], [buildEntry],
    [saveToNotion], [handleEventSafely], [handler]) and the older build of the
    same program kept in [src/dist/server.js] where the two differ.

    Conventions of the embedding.

    - JavaScript strings are [string]s holding the UTF-8 encoding of the text;
      concatenation, emptiness (truthiness) and [join] commute with that
      encoding.
    - JavaScript values that travel as JSON (the model's answer, the payloads
      sent to Notion and LINE) are terms of [value].
    - An [async] function is a computation [M A]: it receives the history of
      observable effects so far and returns an outcome (a value or a thrown
      error) with the extended history.  What the three hosted services and the
      JavaScript runtime answer is given by an environment [Env]; a service's
      answer may depend in any way on the whole history, the request included.
    - JavaScript numbers are finite, and their arithmetic is exact: no
      rounding, no overflow.  [maxRetries] is a rational ([Q]), so that it
      need not be whole; [delay], a number of milliseconds, and the loop
      counter of [retry] are integers ([Z]).
    - The events of a request are JSON values as they arrive; nothing makes
      them objects.
    - [Promise.all] is given one schedule: the events of a batch are handled
      one after the other, in the order of the array.  What is proved of one
      event holds for every environment and every history it starts from;
      of a batch, only what holds in every schedule is stated: whether it is
      fulfilled, and the status the handler answers with. *)

From Stdlib Require Import String Ascii List ZArith QArith Qround Bool Arith Lia.
From Stdlib Require Import DecimalString.
From Equations Require Import Equations.
Import ListNotations.

#[local] Set Warnings "-register-all".

Local Open Scope string_scope.
Local Open Scope Z_scope.
Local Open Scope list_scope.

(** ** JavaScript values and errors *)

(** JSON-shaped JavaScript values.  An object is the list of its own
    properties in insertion order; a property is read with [get], which takes
    the first binding of the key.  [VUndefined] never comes out of
    [JSON.parse]; it is what the code writes for an unset property. *)
Inductive value : Type :=
| VUndefined
| VNull
| VBool (b : bool)
| VNum (n : Z)
| VStr (s : string)
| VArr (items : list value)
| VObj (fields : list (string * value)).

(** What the program can throw. *)
Inductive exn : Type :=
| Error (message : string)          (* [new Error(message)] *)
| TypeError (message : string)      (* a bad property access, [in] test or call *)
| SyntaxError (message : string)    (* [JSON.parse] on malformed text *)
| ZodError                          (* [Schema.parse] on a non-conforming candidate *)
| ServiceError (detail : string).   (* a rejected call to a hosted service *)

Inductive Outcome (A : Type) : Type :=
| Ok (a : A)
| Throw (error : exn).
Arguments Ok {A} a.
Arguments Throw {A} error.

Fixpoint get (fields : list (string * value)) (key : string) : option value :=
  match fields with
  | [] => None
  | (k, v) :: rest => if String.eqb k key then Some v else get rest key
  end.

(** [data[key]] on an object: a missing property reads as [undefined]. *)
Definition prop (fields : list (string * value)) (key : string) : value :=
  match get fields key with
  | Some v => v
  | None => VUndefined
  end.

(** [v.key] on any value, for the names this program reads ([type],
    [message], [text], [replyToken], [id]): [undefined] and [null] have no
    properties and the access throws; a string, a number, a boolean and an
    array have none of these names, and the access gives [undefined]. *)
Definition read (v : value) (key : string) : Outcome value :=
  match v with
  | VUndefined =>
      Throw (TypeError ("Cannot read properties of undefined (reading '" ++ key ++ "')"))
  | VNull =>
      Throw (TypeError ("Cannot read properties of null (reading '" ++ key ++ "')"))
  | VObj fields => Ok (prop fields key)
  | _ => Ok VUndefined
  end.

(** [v === s] for a string literal [s]. *)
Definition same (v : value) (s : string) : bool :=
  match v with
  | VStr t => String.eqb t s
  | _ => false
  end.

(** How an error message shows a value that is no object. *)
Definition shown (v : value) : string :=
  match v with
  | VUndefined => "undefined"
  | VNull => "null"
  | VBool true => "true"
  | VBool false => "false"
  | VNum n => NilZero.string_of_int (Z.to_int n)
  | VStr s => s
  | _ => "#<Object>"
  end.

(** [key in v]: an own property of an object; no named property of an array;
    a [TypeError] on anything else. *)
Definition has_property (key : string) (v : value) : Outcome bool :=
  match v with
  | VObj fields =>
      Ok match get fields key with Some _ => true | None => false end
  | VArr _ => Ok false
  | _ =>
      Throw (TypeError ("Cannot use 'in' operator to search for '" ++ key ++ "' in "
                        ++ shown v))
  end.

(** [s ? a : b] on a string: the empty string is falsy. *)
Definition truthy (s : string) : bool := negb (String.eqb s "").

(** [x ? a : b] on an optional string: [undefined] and [""] are falsy. *)
Definition truthy_opt (x : option string) : bool :=
  match x with
  | Some s => truthy s
  | None => false
  end.

(** ** String.prototype.trim *)

Definition utf8 (bytes : list nat) : string :=
  string_of_list_ascii (map ascii_of_nat bytes).

(** The code points ECMAScript calls WhiteSpace or LineTerminator, in UTF-8:
    U+0009..U+000D, U+0020, U+00A0, U+1680, U+2000..U+200A, U+2028, U+2029,
    U+202F, U+205F, U+3000, U+FEFF. *)
Definition white_space : list string :=
  map utf8
    [ [9]; [10]; [11]; [12]; [13]; [32]; [194; 160]; [225; 154; 128];
      [226; 128; 128]; [226; 128; 129]; [226; 128; 130]; [226; 128; 131];
      [226; 128; 132]; [226; 128; 133]; [226; 128; 134]; [226; 128; 135];
      [226; 128; 136]; [226; 128; 137]; [226; 128; 138];
      [226; 128; 168]; [226; 128; 169]; [226; 128; 175]; [226; 129; 159];
      [227; 128; 128]; [239; 187; 191] ]%nat.

Fixpoint strip_prefix (p s : string) : option string :=
  match p with
  | EmptyString => Some s
  | String c p' =>
      match s with
      | EmptyString => None
      | String d s' => if Ascii.eqb c d then strip_prefix p' s' else None
      end
  end.

Fixpoint strip_any (ps : list string) (s : string) : option string :=
  match ps with
  | [] => None
  | p :: rest =>
      match strip_prefix p s with
      | Some s' => Some s'
      | None => strip_any rest s
      end
  end.

Fixpoint strip_all (ps : list string) (fuel : nat) (s : string) : string :=
  match fuel with
  | O => s
  | S fuel' =>
      match strip_any ps s with
      | Some s' => strip_all ps fuel' s'
      | None => s
      end
  end.

Fixpoint string_rev (s : string) : string :=
  match s with
  | EmptyString => EmptyString
  | String c s' => (string_rev s' ++ String c EmptyString)%string
  end.

Definition trimStart (s : string) : string :=
  strip_all white_space (String.length s) s.

Definition trimEnd (s : string) : string :=
  string_rev (strip_all (map string_rev white_space) (String.length s) (string_rev s)).

Definition trim (s : string) : string := trimEnd (trimStart s).

(** [event.message.text.trim()] on any value of [text]: only a string has the
    method; reading it off [undefined] or [null] throws, and so does calling
    what any other value has under that name. *)
Definition trimmed (text : value) : Outcome string :=
  match text with
  | VStr s => Ok (trim s)
  | VUndefined => Throw (TypeError "Cannot read properties of undefined (reading 'trim')")
  | VNull => Throw (TypeError "Cannot read properties of null (reading 'trim')")
  | _ => Throw (TypeError "event.message.text.trim is not a function")
  end.

(** ** Effects and asynchronous computations *)

(** The observable effects, in the order they happen. *)
Inductive Effect : Type :=
| ConsoleLog (text : string)
| ConsoleWarn (attempt delay : Z) (error : exn)
    (* [`Attempt ${attempt} failed, retrying in ${delay}ms...`, error] *)
| ConsoleError (label : string) (error : exn)
| Sleep (ms : Z)
| Invoked
    (* an instrumented operation was called (see [mock]) *)
| ChatCompletionsCreate (request : value)
| PagesCreate (request : value)
| BlocksChildrenAppend (request : value)
| ReplyMessage (replyToken : value) (message : value).

Definition Trace : Type := list Effect.

Definition M (A : Type) : Type := Trace -> Outcome A * Trace.

Definition ret {A} (a : A) : M A := fun tr => (Ok a, tr).

Definition throw {A} (error : exn) : M A := fun tr => (Throw error, tr).

Definition bind {A B} (m : M A) (k : A -> M B) : M B :=
  fun tr =>
    match m tr with
    | (Ok a, tr1) => k a tr1
    | (Throw error, tr1) => (Throw error, tr1)
    end.

(** [try { body } catch (err) { handler }] *)
Definition try_catch {A} (body : M A) (handler : exn -> M A) : M A :=
  fun tr =>
    match body tr with
    | (Ok a, tr1) => (Ok a, tr1)
    | (Throw error, tr1) => handler error tr1
    end.

Definition emit (e : Effect) : M unit := fun tr => (Ok tt, tr ++ [e]).

(** Lifts the outcome of a synchronous step. *)
Definition lift {A} (o : Outcome A) : M A := fun tr => (o, tr).

(** A call to a hosted service: the request is recorded, then the service
    answers, knowing the history up to and including this request. *)
Definition call {A} (request : Effect) (service : Trace -> Outcome A) : M A :=
  fun tr => (service (tr ++ [request]), tr ++ [request]).

Notation "x <- m ;; k" := (bind m (fun x => k))
  (at level 61, m at next level, right associativity).
Notation "m ;; k" := (bind m (fun _ => k))
  (at level 61, right associativity).

(** ** retry *)

Section Retry.
Context {T : Type}.
Variable fn : M T.
Variable maxRetries : Q.

(** How the [for] loop of [retry] is left: by [return await fn()], by
    [throw error] in the [catch] clause, or by its condition [i < maxRetries]
    turning false. *)
Inductive LoopExit : Type :=
| Returned (v : T)
| Rethrown (error : exn)
| FellThrough.

(** The loop from iteration [i] on, with the current [delay].  The counter
    [i] starts at 0 and is incremented, so it is an integer; [maxRetries] is
    any finite number, and the tests [i < maxRetries] and
    [i === maxRetries - 1] compare numbers.  A failed attempt for which the
    second test fails logs a warning, sleeps [delay] milliseconds
    ([Sleep delay] in the history) and doubles the delay. *)
Equations? retry_loop (i delay : Z) (tr : Trace) : LoopExit * Trace
  by wf (Z.to_nat (Qceiling maxRetries - i)) lt :=
  retry_loop i delay tr with Qlt_le_dec (inject_Z i) maxRetries => {
    | right _ => (FellThrough, tr)
    | left _ with fn tr => {
        | (Ok v, tr1) => (Returned v, tr1)
        | (Throw error, tr1) with Qeq_dec (inject_Z i) (maxRetries - 1) => {
            | left _ => (Rethrown error, tr1)
            | right _ =>
                retry_loop (i + 1) (delay * 2)
                  (tr1 ++ [ConsoleWarn (i + 1) delay error; Sleep delay]) } } }.
Proof.
  assert (i < Qceiling maxRetries).
  { rewrite Zlt_Qlt. eapply Qlt_le_trans; [eassumption | apply Qle_ceiling]. }
  lia.
Qed.

(** [retry(fn, maxRetries, delay)]; after the loop, [throw new Error("Retry failed")]. *)
Definition retry (delay : Z) : M T :=
  fun tr =>
    match retry_loop 0 delay tr with
    | (Returned v, tr1) => (Ok v, tr1)
    | (Rethrown error, tr1) => (Throw error, tr1)
    | (FellThrough, tr1) => (Throw (Error "Retry failed"), tr1)
    end.
End Retry.

Arguments Returned {T} v.
Arguments Rethrown {T} error.
Arguments FellThrough {T}.

(** [retry(fn)] with the default arguments [maxRetries = 3], [delay = 1000]. *)
Definition retry_default {T} (fn : M T) : M T := retry fn 3 1000.

(** An instrumented operation, as a test would pass to [retry]: its [k]-th
    call (counting from 0) settles as [script k]; every call leaves [Invoked]
    in the history. *)
Definition is_Invoked (e : Effect) : bool :=
  match e with Invoked => true | _ => false end.

Definition invocations (tr : Trace) : nat := length (filter is_Invoked tr).

Definition mock {T} (script : nat -> Outcome T) : M T :=
  fun tr => (script (invocations tr), tr ++ [Invoked]).

(** Fails [n] times, with the errors [errs 0], ..., [errs (n - 1)], then
    succeeds with [v]. *)
Definition fails_then_succeeds {T} (errs : nat -> exn) (n : nat) (v : T)
  : nat -> Outcome T :=
  fun k => if (k <? n)%nat then Throw (errs k) else Ok v.

Definition always_fails {T} (errs : nat -> exn) : nat -> Outcome T :=
  fun k => Throw (errs k).

(** The delays slept through in a history. *)
Fixpoint sleeps (tr : Trace) : list Z :=
  match tr with
  | [] => []
  | Sleep ms :: rest => ms :: sleeps rest
  | _ :: rest => sleeps rest
  end.

(** What a failed attempt that is not the last one leaves in the history:
    the [i]-th call (from 0), the warning, and the sleep of [delay * 2^i]. *)
Definition failed_attempt (errs : nat -> exn) (delay : Z) (i : nat) : Trace :=
  [ Invoked;
    ConsoleWarn (Z.of_nat i + 1) (delay * 2 ^ Z.of_nat i) (errs i);
    Sleep (delay * 2 ^ Z.of_nat i) ].

(** The failed attempts [from], ..., [from + n - 1]. *)
Definition failed_attempts (errs : nat -> exn) (delay : Z) (from n : nat) : Trace :=
  flat_map (failed_attempt errs delay) (seq from n).

(** [delay; 2 * delay; 4 * delay; ...], [n] of them. *)
Definition backoff (delay : Z) (n : nat) : list Z :=
  map (fun k => delay * 2 ^ Z.of_nat k) (seq 0 n).

(** ** The entry schema

    [z.infer<typeof Schema>]: the validated dictionary entry. *)

(** An item of [例文]: [{ 英: string; 日?: string }]. *)
Record ExampleSentence : Type := {
  英 : string;
  日 : option string
}.

Record Entry : Type := {
  単語 : string;
  発音記号 : option string;
  品詞 : option (list string);
  意味 : list string;
  語源 : option string;
  コロケーション : option (list string);
  例文 : option (list ExampleSentence);
  CEFR : option string;
  類義語 : option (list string);
  出典URL : option string
}.

(** A zod type as the function its [safeParse] computes: [Some] of the parsed
    data, or [None] when the input raises an issue. *)
Definition ZodType (A : Type) : Type := value -> option A.

Notation "'let?' x ':=' m 'in' k" :=
  (match m with Some x => k | None => None end)
  (at level 10, x name, m at level 100, k at level 200).

(** [z.string()] *)
Definition z_string : ZodType string :=
  fun v => match v with VStr s => Some s | _ => None end.

(** [.url()] on a string type.  The check itself belongs to the zod package;
    it is the parameter [is_url]. *)
Definition z_url (is_url : string -> bool) (t : ZodType string) : ZodType string :=
  fun v => let? s := t v in if is_url s then Some s else None.

Fixpoint parse_items {A} (t : ZodType A) (items : list value) : option (list A) :=
  match items with
  | [] => Some []
  | v :: rest =>
      let? a := t v in
      let? l := parse_items t rest in
      Some (a :: l)
  end.

(** [z.array(t)] *)
Definition z_array {A} (t : ZodType A) : ZodType (list A) :=
  fun v => match v with VArr items => parse_items t items | _ => None end.

(** [.min(n)] on an array type *)
Definition z_min {A} (n : nat) (t : ZodType (list A)) : ZodType (list A) :=
  fun v => let? l := t v in if (n <=? length l)%nat then Some l else None.

(** [.max(n)] on an array type *)
Definition z_max {A} (n : nat) (t : ZodType (list A)) : ZodType (list A) :=
  fun v => let? l := t v in if (length l <=? n)%nat then Some l else None.

(** [.optional()]: [undefined] parses to [undefined]. *)
Definition z_optional {A} (t : ZodType A) : ZodType (option A) :=
  fun v =>
    match v with
    | VUndefined => Some None
    | _ => let? a := t v in Some (Some a)
    end.

(** [z.object({ 英: z.string(), 日: z.string().optional() })] *)
Definition z_example : ZodType ExampleSentence :=
  fun v =>
    match v with
    | VObj o =>
        let? en := z_string (prop o "英") in
        let? ja := z_optional z_string (prop o "日") in
        Some {| 英 := en; 日 := ja |}
    | _ => None
    end.

(** The [z.object({...})] both builds declare, up to the type of [出典URL]. *)
Definition z_entry (出典URL_type : ZodType (option string)) : ZodType Entry :=
  fun v =>
    match v with
    | VObj o =>
        let? f1 := z_string (prop o "単語") in
        let? f2 := z_optional z_string (prop o "発音記号") in
        let? f3 := z_optional (z_array z_string) (prop o "品詞") in
        let? f4 := z_min 1 (z_array z_string) (prop o "意味") in
        let? f5 := z_optional z_string (prop o "語源") in
        let? f6 := z_optional (z_array z_string) (prop o "コロケーション") in
        let? f7 := z_optional (z_max 3 (z_min 1 (z_array z_example))) (prop o "例文") in
        let? f8 := z_optional z_string (prop o "CEFR") in
        let? f9 := z_optional (z_array z_string) (prop o "類義語") in
        let? f10 := 出典URL_type (prop o "出典URL") in
        Some {| 単語 := f1; 発音記号 := f2; 品詞 := f3; 意味 := f4; 語源 := f5;
                コロケーション := f6; 例文 := f7; CEFR := f8; 類義語 := f9;
                出典URL := f10 |}
    | _ => None
    end.

(** [Schema] of [src/api/webhook.ts]: [出典URL: z.string().optional()]. *)
Definition Schema : ZodType Entry := z_entry (z_optional z_string).

(** [Schema] of [src/dist/server.js]: [出典URL: z.string().url().optional()]. *)
Definition Schema_dist (is_url : string -> bool) : ZodType Entry :=
  z_entry (z_optional (z_url is_url z_string)).

(** [schema.parse(candidate)]: the parsed data, or a thrown [ZodError]. *)
Definition parse {A} (schema : ZodType A) (candidate : value) : Outcome A :=
  match schema candidate with
  | Some a => Ok a
  | None => Throw ZodError
  end.

(** A zod type accepts an input when parsing it raises no issue. *)
Definition accepts {A} (t : ZodType A) (v : value) : Prop :=
  exists a, t v = Some a.

(** *** The declared schema as a predicate

    The shape of an entry in the words of the specification's data model:
    word (string, required), phonetic (string, optional), part of speech
    (list of string, optional), meanings (list of string, required, at least
    one), etymology (string, optional), collocations (list of string,
    optional), examples (list of {source: string, translation: string
    optional}, optional, between 1 and 3 items when present), CEFR level
    (string, optional), synonyms (list of string, optional), source URL
    (string, optional).  A property is omitted when reading it gives
    [undefined].  The predicate is about shape, types and item counts, which
    is what [Schema] of [src/api/webhook.ts] declares; that the word is not
    empty and that the source URL has the format of a URL are no part of it. *)

Definition is_string (v : value) : Prop := exists s, v = VStr s.

Definition is_list_of (P : value -> Prop) (v : value) : Prop :=
  exists items, v = VArr items /\ Forall P items.

Definition item_count (v : value) : nat :=
  match v with VArr items => length items | _ => O end.

Definition omitted (o : list (string * value)) (key : string) : Prop :=
  prop o key = VUndefined.

Definition optional (P : value -> Prop) (o : list (string * value)) (key : string) : Prop :=
  omitted o key \/ P (prop o key).

(** An example: [{source: string, translation: string optional}]. *)
Definition is_example (v : value) : Prop :=
  exists o, v = VObj o /\ is_string (prop o "英") /\ optional is_string o "日".

(** Between 1 and 3 examples. *)
Definition is_examples (v : value) : Prop :=
  is_list_of is_example v /\ (1 <= item_count v <= 3)%nat.

(** At least one meaning. *)
Definition is_meanings (v : value) : Prop :=
  is_list_of is_string v /\ (1 <= item_count v)%nat.

Definition matches_schema (candidate : value) : Prop :=
  exists o, candidate = VObj o /\
    is_string (prop o "単語") /\
    optional is_string o "発音記号" /\
    optional (is_list_of is_string) o "品詞" /\
    is_meanings (prop o "意味") /\
    optional is_string o "語源" /\
    optional (is_list_of is_string) o "コロケーション" /\
    optional is_examples o "例文" /\
    optional is_string o "CEFR" /\
    optional (is_list_of is_string) o "類義語" /\
    optional is_string o "出典URL".

(** ** Configuration and the outside world *)

(** [process.env], the JavaScript runtime and the three hosted services.
    A variable of the environment that is not set is [None].  Each service
    answers from the history, which ends with the request being answered. *)
Record Env : Type := {
  LINE_CHANNEL_SECRET : option string;
  LINE_ACCESS_TOKEN : option string;
  OPENAI_API_KEY : option string;
  NOTION_TOKEN : option string;
  NOTION_DATABASE_ID : option string;
  OPENAI_MODEL : option string;
  (** [JSON.parse(text)] *)
  JSON_parse : string -> Outcome value;
  (** [zodToJsonSchema(Schema)] *)
  zodToJsonSchema_Schema : value;
  (** [new OpenAI({ apiKey })]: the constructor may refuse the key. *)
  new_OpenAI : option string -> Outcome unit;
  (** [openai.chat.completions.create(request)], answered with
      [completion.choices[0]?.message?.content] ([None]: no content). *)
  chat_completions_create : Trace -> Outcome (option string);
  (** [notion.pages.create(request)], answered with the page. *)
  pages_create : Trace -> Outcome value;
  (** [notion.blocks.children.append(request)] *)
  blocks_children_append : Trace -> Outcome unit;
  (** [lineClient.replyMessage(replyToken, message)] *)
  replyMessage : Trace -> Outcome unit
}.

Definition of_env (x : option string) : value :=
  match x with
  | Some s => VStr s
  | None => VUndefined
  end.

Definition dquote : string := String (ascii_of_nat 34) EmptyString.

Section Pipeline.
Variable env : Env.

(** [OPENAI_MODEL = "gpt-4o-mini"] in the destructuring of [process.env]. *)
Definition model : string :=
  match OPENAI_MODEL env with
  | Some m => m
  | None => "gpt-4o-mini"
  end.

(** [lineClient] is a client exactly when [LINE_ACCESS_TOKEN] is truthy. *)
Definition lineClient : bool := truthy_opt (LINE_ACCESS_TOKEN env).

(** [notion] is a client exactly when [NOTION_TOKEN] is truthy. *)
Definition notion : bool := truthy_opt (NOTION_TOKEN env).

(** ** buildEntry *)

Definition system : string :=
  "あなたは日本人学習者向けの英語辞書アシスタントです。
出力は必ず「日本語のキーのみのJSON」で、下記スキーマに完全準拠してください。冗長にしないでください。".

Definition user (word : string) : string :=
  ("対象語: " ++ dquote ++ word ++ dquote ++ "
必要項目: 単語, 発音記号, 品詞, 意味(日本語/複数可), 語源(簡潔), コロケーション(自然なもの優先),
例文 1〜3（{英, 日}）、CEFR, 類義語, 出典URL（あれば）。
返答は日本語キーのJSONのみ。説明文は不要。")%string.

Definition completion_request (word : string) : value :=
  VObj [
    ("model", VStr model);
    ("messages", VArr [
       VObj [("role", VStr "system"); ("content", VStr system)];
       VObj [("role", VStr "user"); ("content", VStr (user word))] ]);
    ("response_format", VObj [
       ("type", VStr "json_schema");
       ("json_schema", VObj [
          ("name", VStr "WordJP");
          ("schema", zodToJsonSchema_Schema env) ]) ]) ].

(** One attempt: the function [buildEntry] hands to [retry]. *)
Definition buildEntry_attempt (schema : ZodType Entry) (word : string) : M Entry :=
  lift (new_OpenAI env (OPENAI_API_KEY env));;
  content <- call (ChatCompletionsCreate (completion_request word))
                  (chat_completions_create env);;
  match content with
  | Some text =>
      if truthy text
      then candidate <- lift (JSON_parse env text);;
           lift (parse schema candidate)
      else throw (Error "No response from OpenAI")
  | None => throw (Error "No response from OpenAI")
  end.

Definition buildEntry (word : string) : M Entry :=
  retry_default (buildEntry_attempt Schema word).

(** ** saveToNotion *)

(** [{ rich_text: [{ text: { content } }] }] *)
Definition rich_text (content : string) : value :=
  VObj [("rich_text", VArr [VObj [("text", VObj [("content", VStr content)])]])].

(** [x ? f(x) : undefined] on an optional string *)
Definition if_string (x : option string) (f : string -> value) : value :=
  match x with
  | Some s => if truthy s then f s else VUndefined
  | None => VUndefined
  end.

(** [x ? f(x) : undefined] on an optional array: every array is truthy. *)
Definition if_array (x : option (list string)) (f : list string -> value) : value :=
  match x with
  | Some l => f l
  | None => VUndefined
  end.

(** The object [props]; [title] is the name of the title property,
    ["Vocabulary"] in [src/api/webhook.ts] and ["単語"] in [src/dist/server.js]. *)
Definition page_properties (title : string) (e : Entry) : value :=
  VObj [
    (title, VObj [("title", VArr [VObj [("text", VObj [("content", VStr (単語 e))])]])]);
    ("発音記号", if_string (発音記号 e) rich_text);
    ("品詞", if_array (品詞 e)
       (fun l => VObj [("multi_select", VArr (map (fun v => VObj [("name", VStr v)]) l))]));
    ("意味", VObj [("rich_text",
       VArr (map (fun m => VObj [("text", VObj [("content", VStr ("• " ++ m)%string)])])
                 (意味 e)))]);
    ("語源", if_string (語源 e) rich_text);
    ("コロケーション", if_array (コロケーション e) (fun l => rich_text (String.concat ", " l)));
    ("CEFR", if_string (CEFR e) (fun s => VObj [("select", VObj [("name", VStr s)])]));
    ("類義語", if_array (類義語 e) (fun l => rich_text (String.concat ", " l)));
    ("出典URL", if_string (出典URL e) (fun s => VObj [("url", VStr s)])) ].

Definition props : Entry -> value := page_properties "Vocabulary".

Definition props_dist : Entry -> value := page_properties "単語".

Definition page_request (properties : value) : value :=
  VObj [
    ("parent", VObj [("database_id", of_env (NOTION_DATABASE_ID env))]);
    ("properties", properties) ].

(** [{ type: "text", text: { content } }] *)
Definition text_segment (content : string) : value :=
  VObj [("type", VStr "text"); ("text", VObj [("content", VStr content)])].

(** [{ type: "bulleted_list_item", bulleted_list_item: { rich_text } }] *)
Definition bulleted_list_item (rich_text : list value) : value :=
  VObj [
    ("type", VStr "bulleted_list_item");
    ("bulleted_list_item", VObj [("rich_text", VArr rich_text)]) ].

(** One item of the page body: the example, followed by its translation
    when [s.日] is truthy. *)
Definition example_block (s : ExampleSentence) : value :=
  bulleted_list_item
    (text_segment (英 s)
     :: match 日 s with
        | Some t => if truthy t then [text_segment ("  — " ++ t)%string] else []
        | None => []
        end).

(** [(page as any).id] *)
Definition page_id (page : value) : Outcome value := read page "id".

Definition append_request (block_id : value) (examples : list ExampleSentence) : value :=
  VObj [("block_id", block_id); ("children", VArr (map example_block examples))].

(** One attempt: the function [saveToNotion] hands to [retry]. *)
Definition saveToNotion_attempt (properties : Entry -> value) (e : Entry) : M unit :=
  page <- call (PagesCreate (page_request (properties e))) (pages_create env);;
  match 例文 e with
  | Some (s :: rest) =>
      block_id <- lift (page_id page);;
      call (BlocksChildrenAppend (append_request block_id (s :: rest)))
           (blocks_children_append env)
  | Some [] => ret tt
  | None => ret tt
  end.

Definition saveToNotion (e : Entry) : M unit :=
  if notion then retry_default (saveToNotion_attempt props e)
  else throw (Error "Notion client not initialized").

(** What [JSON.stringify] keeps of a value when the client sends it: a
    property whose value is [undefined] is left out, an [undefined] array
    item is sent as [null]. *)
Fixpoint serialized (v : value) : value :=
  match v with
  | VObj fields =>
      VObj ((fix kept (fs : list (string * value)) : list (string * value) :=
               match fs with
               | [] => []
               | (k, VUndefined) :: rest => kept rest
               | (k, x) :: rest => (k, serialized x) :: kept rest
               end) fields)
  | VArr items =>
      VArr (map (fun x => match x with VUndefined => VNull | _ => serialized x end) items)
  | _ => v
  end.

(** ** The LINE webhook *)

(** A webhook event is an item of the array [req.body.events], as the body
    parser read it from the JSON of the request: any [value].  The code types
    it [WebhookEvent] without checking it. *)

Definition text_message (content : string) : value :=
  VObj [("type", VStr "text"); ("text", VStr content)].

Definition confirmation (e : Entry) : string :=
  ("「" ++ 単語 e ++ "」をNotionに追加しました ✅")%string.

Definition failure_notice : string :=
  "登録中にエラーが発生しました。もう一度お試しください。".

(** The [try] block of [handleEventSafely]. *)
Definition processEvent (event : value) : M unit :=
  event_type <- lift (read event "type");;
  if negb (same event_type "message") then ret tt
  else
    message <- lift (read event "message");;
    message_type <- lift (read message "type");;
    if negb (same message_type "text") then ret tt
    else
      text <- lift (read message "text");;
      word <- lift (trimmed text);;
      if negb (truthy word) then ret tt
      else
        emit (ConsoleLog ("Processing word: " ++ word)%string);;
        entry <- buildEntry word;;
        emit (ConsoleLog ("Built entry for: " ++ 単語 entry)%string);;
        saveToNotion entry;;
        emit (ConsoleLog ("Saved to Notion: " ++ 単語 entry)%string);;
        if lineClient
        then replyToken <- lift (read event "replyToken");;
             call (ReplyMessage replyToken (text_message (confirmation entry)))
                  (replyMessage env)
        else ret tt.

(** The [catch] clause of [handleEventSafely].  The test
    ["replyToken" in event] stands outside the inner [try]. *)
Definition onEventError (event : value) (err : exn) : M unit :=
  emit (ConsoleError "Error processing event:" err);;
  has_token <- lift (has_property "replyToken" event);;
  if has_token && lineClient
  then try_catch
         (replyToken <- lift (read event "replyToken");;
          call (ReplyMessage replyToken (text_message failure_notice))
               (replyMessage env))
         (fun replyErr => emit (ConsoleError "Failed to send error reply:" replyErr))
  else ret tt.

Definition handleEventSafely (event : value) : M unit :=
  try_catch (processEvent event) (onEventError event).

(** [await Promise.all(promises)] in one schedule of the promises: one after
    the other, in the order of the array.  All of them run; the result is
    rejected with the first rejection, and fulfilled when there is none.
    The runtime interleaves the promises at their [await]s, so the history of
    a batch of several events is one of several possible orders; whether the
    result is fulfilled does not depend on the order, since each promise is
    settled by its own run, and each run is covered by an environment and a
    starting history. *)
Fixpoint Promise_all (promises : list (M unit)) : M unit :=
  match promises with
  | [] => ret tt
  | p :: rest =>
      fun tr =>
        match p tr with
        | (Ok _, tr1) => Promise_all rest tr1
        | (Throw error, tr1) => (Throw error, snd (Promise_all rest tr1))
        end
  end.

(** The request as the handler reads it: [req.method] and [req.body.events]
    ([None] when the body carries no array of events). *)
Record Request : Type := {
  method : string;
  events : option (list value)
}.

(** What the handler writes to [res]: the status and the JSON body, if any. *)
Record Response : Type := {
  status : Z;
  json : option value
}.

Definition handler (req : Request) : M Response :=
  if negb (String.eqb (method req) "POST")
  then ret {| status := 405; json := Some (VObj [("error", VStr "Method not allowed")]) |}
  else
    try_catch
      (match events req with
       | Some evs =>
           Promise_all (map handleEventSafely evs);;
           ret {| status := 200; json := None |}
       | None => throw (TypeError "Cannot read properties of undefined (reading 'map')")
       end)
      (fun error =>
         emit (ConsoleError "Webhook error:" error);;
         ret {| status := 500; json := Some (VObj [("error", VStr "Internal server error")]) |}).

End Pipeline.

(** An event that is neither [null] nor [undefined]: every property can be
    read off it. *)
Definition not_null (event : value) : Prop :=
  event <> VNull /\ event <> VUndefined.

(** What the [catch] clause adds to the history when the [try] block threw
    on an event that is not [null]: the log, and on an object with a reply
    token, given a LINE client, the failure notice and the log of its
    failure. *)
Definition error_handling (env : Env) (event : value) (err : exn) (tr : Trace)
  : Trace :=
  ConsoleError "Error processing event:" err
  :: match event with
     | VObj fields =>
         match get fields "replyToken" with
         | Some token =>
             if lineClient env then
               ReplyMessage token (text_message failure_notice)
               :: match replyMessage env
                          (tr ++ [ConsoleError "Error processing event:" err;
                                  ReplyMessage token (text_message failure_notice)])
                  with
                  | Ok _ => []
                  | Throw replyErr => [ConsoleError "Failed to send error reply:" replyErr]
                  end
             else []
         | None => []
         end
     | _ => []
     end.

(** ** Entries used in the statements *)

(** The entry with [word = "ubiquitous"], one meaning and nothing else. *)
Definition ubiquitous : Entry := {|
  単語 := "ubiquitous"; 発音記号 := None; 品詞 := None;
  意味 := ["at or in all places"]; 語源 := None; コロケーション := None;
  例文 := None; CEFR := None; 類義語 := None; 出典URL := None
|}.

(** An entry with one optional field replaced. *)
Definition with_発音記号 (x : option string) (e : Entry) : Entry := {|
  単語 := 単語 e; 発音記号 := x; 品詞 := 品詞 e; 意味 := 意味 e; 語源 := 語源 e;
  コロケーション := コロケーション e; 例文 := 例文 e; CEFR := CEFR e;
  類義語 := 類義語 e; 出典URL := 出典URL e
|}.

Definition with_語源 (x : option string) (e : Entry) : Entry := {|
  単語 := 単語 e; 発音記号 := 発音記号 e; 品詞 := 品詞 e; 意味 := 意味 e; 語源 := x;
  コロケーション := コロケーション e; 例文 := 例文 e; CEFR := CEFR e;
  類義語 := 類義語 e; 出典URL := 出典URL e
|}.

Definition with_CEFR (x : option string) (e : Entry) : Entry := {|
  単語 := 単語 e; 発音記号 := 発音記号 e; 品詞 := 品詞 e; 意味 := 意味 e; 語源 := 語源 e;
  コロケーション := コロケーション e; 例文 := 例文 e; CEFR := x;
  類義語 := 類義語 e; 出典URL := 出典URL e
|}.

Definition with_出典URL (x : option string) (e : Entry) : Entry := {|
  単語 := 単語 e; 発音記号 := 発音記号 e; 品詞 := 品詞 e; 意味 := 意味 e; 語源 := 語源 e;
  コロケーション := コロケーション e; 例文 := 例文 e; CEFR := CEFR e;
  類義語 := 類義語 e; 出典URL := x
|}.

Definition with_例文 (x : option (list ExampleSentence)) (e : Entry) : Entry := {|
  単語 := 単語 e; 発音記号 := 発音記号 e; 品詞 := 品詞 e; 意味 := 意味 e; 語源 := 語源 e;
  コロケーション := コロケーション e; 例文 := x; CEFR := CEFR e;
  類義語 := 類義語 e; 出典URL := 出典URL e
|}.

(** The examples of the specification's test, and the same with an empty
    translation in the first. *)
Definition two_examples (s1 t1 s2 : string) : list ExampleSentence :=
  [ {| 英 := s1; 日 := Some t1 |}; {| 英 := s2; 日 := None |} ].

(** ** Histories that only grow

    [m] only appends to the history, and only effects satisfying [P]. *)
Definition appends {A} (P : Effect -> Prop) (m : M A) : Prop :=
  forall tr, exists ext, snd (m tr) = tr ++ ext /\ Forall P ext.

Definition is_append_call (e : Effect) : Prop :=
  exists request, e = BlocksChildrenAppend request.

(** ** A scripted environment

    An environment for running the pipeline on concrete inputs: every
    credential is set, the language model always answers [answer], which
    [JSON.parse] reads as [candidate], and Notion and LINE accept every call. *)
Definition scripted (answer : string) (candidate : value) : Env := {|
  LINE_CHANNEL_SECRET := Some "channel-secret";
  LINE_ACCESS_TOKEN := Some "channel-access-token";
  OPENAI_API_KEY := Some "openai-api-key";
  NOTION_TOKEN := Some "notion-token";
  NOTION_DATABASE_ID := Some "notion-database-id";
  OPENAI_MODEL := None;
  JSON_parse := fun text =>
    if String.eqb text answer then Ok candidate
    else Throw (SyntaxError "Unexpected token");
  zodToJsonSchema_Schema := VObj [];
  new_OpenAI := fun _ => Ok tt;
  chat_completions_create := fun _ => Ok (Some answer);
  pages_create := fun _ => Ok (VObj [("id", VStr "page-1")]);
  blocks_children_append := fun _ => Ok tt;
  replyMessage := fun _ => Ok tt
|}.

(** The same environment without its Notion token. *)
Definition without_notion (env : Env) : Env := {|
  LINE_CHANNEL_SECRET := LINE_CHANNEL_SECRET env;
  LINE_ACCESS_TOKEN := LINE_ACCESS_TOKEN env;
  OPENAI_API_KEY := OPENAI_API_KEY env;
  NOTION_TOKEN := None;
  NOTION_DATABASE_ID := NOTION_DATABASE_ID env;
  OPENAI_MODEL := OPENAI_MODEL env;
  JSON_parse := JSON_parse env;
  zodToJsonSchema_Schema := zodToJsonSchema_Schema env;
  new_OpenAI := new_OpenAI env;
  chat_completions_create := chat_completions_create env;
  pages_create := pages_create env;
  blocks_children_append := blocks_children_append env;
  replyMessage := replyMessage env
|}.


Definition is_PagesCreate (e : Effect) : bool :=
  match e with PagesCreate _ => true | _ => false end.

(** A text message event. *)
Definition text_event (token content : string) : value :=
  VObj [ ("type", VStr "message");
         ("message", VObj [("type", VStr "text"); ("text", VStr content)]);
         ("replyToken", VStr token) ].

(** The failure notice as a reply. *)
Definition is_failure_notice (e : Effect) : Prop :=
  exists token, e = ReplyMessage token (text_message failure_notice).

(** The answer [{"単語":"","意味":["at or in all places"]}] and its reading. *)
Definition empty_word_answer : string :=
  ("{" ++ dquote ++ "単語" ++ dquote ++ ":" ++ dquote ++ dquote ++ ","
       ++ dquote ++ "意味" ++ dquote ++ ":[" ++ dquote ++ "at or in all places"
       ++ dquote ++ "]}")%string.

Definition empty_word_candidate : value :=
  VObj [("単語", VStr ""); ("意味", VArr [VStr "at or in all places"])].

(** The answer [{"単語":"ubiquitous","意味":["at or in all places"]}], its
    reading, and the environment in which the model gives it. *)
Definition ubiquitous_answer : string :=
  ("{" ++ dquote ++ "単語" ++ dquote ++ ":" ++ dquote ++ "ubiquitous" ++ dquote ++ ","
       ++ dquote ++ "意味" ++ dquote ++ ":[" ++ dquote ++ "at or in all places"
       ++ dquote ++ "]}")%string.

Definition ubiquitous_candidate : value :=
  VObj [("単語", VStr "ubiquitous"); ("意味", VArr [VStr "at or in all places"])].

Definition demo : Env := scripted ubiquitous_answer ubiquitous_candidate.

(** ** Counting calls *)

(** The number of effects of a kind in a history. *)
Definition count (p : Effect -> bool) (tr : Trace) : nat := length (filter p tr).

Definition is_Sleep (e : Effect) : bool :=
  match e with Sleep _ => true | _ => false end.

Definition is_ConsoleWarn (e : Effect) : bool :=
  match e with ConsoleWarn _ _ _ => true | _ => false end.

Definition is_ChatCompletionsCreate (e : Effect) : bool :=
  match e with ChatCompletionsCreate _ => true | _ => false end.

Definition is_BlocksChildrenAppend (e : Effect) : bool :=
  match e with BlocksChildrenAppend _ => true | _ => false end.

Definition is_ReplyMessage (e : Effect) : bool :=
  match e with ReplyMessage _ _ => true | _ => false end.

(** [m] only appends to the history, and at most [k] effects of the kind [p]. *)
Definition adds_at_most {A} (p : Effect -> bool) (k : nat) (m : M A) : Prop :=
  forall tr, exists ext, snd (m tr) = tr ++ ext /\ (count p ext <= k)%nat.

(** ** Entries as JSON *)

(** The property names the schema declares. *)
Definition schema_keys : list string :=
  [ "単語"; "発音記号"; "品詞"; "意味"; "語源"; "コロケーション"; "例文"; "CEFR";
    "類義語"; "出典URL" ].

(** The optional property names among them. *)
Definition optional_keys : list string :=
  [ "発音記号"; "品詞"; "語源"; "コロケーション"; "例文"; "CEFR"; "類義語"; "出典URL" ].

(** A property that is written only when it has a value. *)
Definition field {A} (key : string) (x : option A) (f : A -> value)
  : list (string * value) :=
  match x with
  | Some a => [(key, f a)]
  | None => []
  end.

Definition strings (l : list string) : value := VArr (map VStr l).

(** What [JSON.parse(JSON.stringify(s))] is for an example [s]: the object
    with its defined properties. *)
Definition example_to_json (s : ExampleSentence) : value :=
  VObj (("英", VStr (英 s)) :: field "日" (日 s) VStr).

(** The same for an entry [e]. *)
Definition to_json (e : Entry) : value :=
  VObj (("単語", VStr (単語 e))
        :: field "発音記号" (発音記号 e) VStr
        ++ field "品詞" (品詞 e) strings
        ++ ("意味", strings (意味 e))
        :: field "語源" (語源 e) VStr
        ++ field "コロケーション" (コロケーション e) strings
        ++ field "例文" (例文 e) (fun l => VArr (map example_to_json l))
        ++ field "CEFR" (CEFR e) VStr
        ++ field "類義語" (類義語 e) strings
        ++ field "出典URL" (出典URL e) VStr).

(** What reading a property gives: its value when it was written. *)
Definition written {A} (x : option A) (f : A -> value) : value :=
  match x with
  | Some a => f a
  | None => VUndefined
  end.

(** The item counts the schema asks of an entry. *)
Definition well_counted (e : Entry) : Prop :=
  (1 <= length (意味 e))%nat /\
  (forall l, 例文 e = Some l -> (1 <= length l <= 3)%nat).

(** The own property names of an object. *)
Definition keys (v : value) : list string :=
  match v with
  | VObj fields => map fst fields
  | _ => []
  end.

(** ** Attempts and answers *)

(** The history of three failed attempts with the default arguments: each
    attempt adds [attempt], and the first two are followed by the warning and
    the sleep. *)
Definition three_attempts (attempt : Trace) (error : exn) : Trace :=
  attempt ++ [ConsoleWarn 1 1000 error; Sleep 1000]
  ++ attempt ++ [ConsoleWarn 2 2000 error; Sleep 2000]
  ++ attempt.

(** [Schema.parse(JSON.parse(text))] *)
Definition validate (env : Env) (text : string) : Outcome Entry :=
  match JSON_parse env text with
  | Ok candidate => parse Schema candidate
  | Throw error => Throw error
  end.

(** An environment with other answers of the hosted services. *)
Definition with_services
  (chat : Trace -> Outcome (option string)) (pages : Trace -> Outcome value)
  (blocks : Trace -> Outcome unit) (reply : Trace -> Outcome unit) (env : Env) : Env := {|
  LINE_CHANNEL_SECRET := LINE_CHANNEL_SECRET env;
  LINE_ACCESS_TOKEN := LINE_ACCESS_TOKEN env;
  OPENAI_API_KEY := OPENAI_API_KEY env;
  NOTION_TOKEN := NOTION_TOKEN env;
  NOTION_DATABASE_ID := NOTION_DATABASE_ID env;
  OPENAI_MODEL := OPENAI_MODEL env;
  JSON_parse := JSON_parse env;
  zodToJsonSchema_Schema := zodToJsonSchema_Schema env;
  new_OpenAI := new_OpenAI env;
  chat_completions_create := chat;
  pages_create := pages;
  blocks_children_append := blocks;
  replyMessage := reply
|}.

(** [demo] with a model that gives no content. *)
Definition silent_model : Env :=
  with_services (fun _ => Ok None) (pages_create demo) (blocks_children_append demo)
                (replyMessage demo) demo.

(** [demo] with a model whose first answer is no JSON and whose later
    answers are the entry. *)
Definition second_answer_valid : Env :=
  with_services
    (fun history =>
       if (count is_ChatCompletionsCreate history =? 1)%nat
       then Ok (Some "Sure! Here is the entry.")
       else Ok (Some ubiquitous_answer))
    (pages_create demo) (blocks_children_append demo) (replyMessage demo) demo.

(** [demo] with a Notion that refuses the first block append. *)
Definition first_append_fails : Env :=
  with_services (chat_completions_create demo) (pages_create demo)
    (fun history =>
       if (count is_BlocksChildrenAppend history =? 1)%nat
       then Throw (ServiceError "502")
       else Ok tt)
    (replyMessage demo) demo.

(** ** What is sent *)

(** [[key]] when [b] holds. *)
Definition when (b : bool) (key : string) : list string :=
  if b then [key] else [].

Definition present {A} (x : option A) : bool :=
  match x with Some _ => true | None => false end.

(** What [buildEntry] may add to the history: the request for the word, a
    warning, a sleep. *)
Definition build_effect (env : Env) (word : string) (e : Effect) : Prop :=
  e = ChatCompletionsCreate (completion_request env word) \/
  is_ConsoleWarn e = true \/ is_Sleep e = true.

(** What [saveToNotion] may add to the history: the creation of the entry's
    page, the append of the entry's examples to some block, a warning, a sleep. *)
Definition save_effect (env : Env) (e : Entry) (effect : Effect) : Prop :=
  effect = PagesCreate (page_request env (props e)) \/
  (exists block_id examples,
      例文 e = Some examples /\
      effect = BlocksChildrenAppend (append_request block_id examples)) \/
  is_ConsoleWarn effect = true \/ is_Sleep effect = true.

(** ** Blank text *)


(** A value without the property [type]: a string, a number, a boolean or an
    array. *)
Definition untyped (v : value) : Prop :=
  match v with
  | VBool _ | VNum _ | VStr _ | VArr _ => True
  | _ => False
  end.


(** ** The older build, [src/dist/server.js]

    The same pipeline behind an express route.  It differs from
    [src/api/webhook.ts] in the schema ([Schema_dist]), in the JSON schema it
    hands to the model (the zod object itself, [schema_object] here), in the
    name of the title property ([props_dist]) and in the route, which has no
    [try]/[catch] of its own. *)

Section Dist.
Variable env : Env.
Variable is_url : string -> bool.
Variable schema_object : value.

Definition completion_request_dist (word : string) : value :=
  VObj [
    ("model", VStr (model env));
    ("messages", VArr [
       VObj [("role", VStr "system"); ("content", VStr system)];
       VObj [("role", VStr "user"); ("content", VStr (user word))] ]);
    ("response_format", VObj [
       ("type", VStr "json_schema");
       ("json_schema", VObj [
          ("name", VStr "WordJP");
          ("schema", schema_object) ]) ]) ].

Definition buildEntry_attempt_dist (word : string) : M Entry :=
  lift (new_OpenAI env (OPENAI_API_KEY env));;
  content <- call (ChatCompletionsCreate (completion_request_dist word))
                  (chat_completions_create env);;
  match content with
  | Some text =>
      if truthy text
      then candidate <- lift (JSON_parse env text);;
           lift (parse (Schema_dist is_url) candidate)
      else throw (Error "No response from OpenAI")
  | None => throw (Error "No response from OpenAI")
  end.

Definition buildEntry_dist (word : string) : M Entry :=
  retry_default (buildEntry_attempt_dist word).

Definition saveToNotion_dist (e : Entry) : M unit :=
  if notion env then retry_default (saveToNotion_attempt env props_dist e)
  else throw (Error "Notion client not initialized").

(** The [try] block of [handleEventSafely] in [server.js]. *)
Definition processEvent_dist (event : value) : M unit :=
  event_type <- lift (read event "type");;
  if negb (same event_type "message") then ret tt
  else
    message <- lift (read event "message");;
    message_type <- lift (read message "type");;
    if negb (same message_type "text") then ret tt
    else
      text <- lift (read message "text");;
      word <- lift (trimmed text);;
      if negb (truthy word) then ret tt
      else
        emit (ConsoleLog ("Processing word: " ++ word)%string);;
        entry <- buildEntry_dist word;;
        emit (ConsoleLog ("Built entry for: " ++ 単語 entry)%string);;
        saveToNotion_dist entry;;
        emit (ConsoleLog ("Saved to Notion: " ++ 単語 entry)%string);;
        if lineClient env
        then replyToken <- lift (read event "replyToken");;
             call (ReplyMessage replyToken (text_message (confirmation entry)))
                  (replyMessage env)
        else ret tt.

Definition handleEventSafely_dist (event : value) : M unit :=
  try_catch (processEvent_dist event) (onEventError env event).

(** The route [app.post("/webhook", ..., async (req, res) => ...)], after the
    signature middleware: [events] is [req.body.events]. *)
Definition webhook_dist (events : option (list value)) : M Response :=
  match events with
  | Some evs =>
      Promise_all (map handleEventSafely_dist evs);;
      ret {| status := 200; json := None |}
  | None => throw (TypeError "Cannot read properties of undefined (reading 'map')")
  end.

End Dist.

(** The answer [{"単語":"ubiquitous","意味":["at or in all places"],
    "出典URL":"not a url"}] and its reading. *)
Definition bad_url_answer : string :=
  ("{" ++ dquote ++ "単語" ++ dquote ++ ":" ++ dquote ++ "ubiquitous" ++ dquote ++ ","
       ++ dquote ++ "意味" ++ dquote ++ ":[" ++ dquote ++ "at or in all places"
       ++ dquote ++ "]," ++ dquote ++ "出典URL" ++ dquote ++ ":" ++ dquote
       ++ "not a url" ++ dquote ++ "}")%string.

Definition bad_url_candidate : value :=
  VObj [("単語", VStr "ubiquitous"); ("意味", VArr [VStr "at or in all places"]);
        ("出典URL", VStr "not a url")].

(** * Properties *)

(** ** The retry wrapper *)

Section RetryFacts.
Context {T : Type}.
Variable fn : M T.
Variable maxRetries : Q.

(** One iteration of the loop. *)
Lemma retry_loop_step i delay tr :
  retry_loop fn maxRetries i delay tr =
  if Qlt_le_dec (inject_Z i) maxRetries then
    match fn tr with
    | (Ok v, tr1) => (Returned v, tr1)
    | (Throw error, tr1) =>
        if Qeq_dec (inject_Z i) (maxRetries - 1) then (Rethrown error, tr1)
        else retry_loop fn maxRetries (i + 1) (delay * 2)
               (tr1 ++ [ConsoleWarn (i + 1) delay error; Sleep delay])
    end
  else (FellThrough, tr).
Proof.
  rewrite retry_loop_equation_1; unfold retry_loop_unfold_clause_1.
  destruct (Qlt_le_dec (inject_Z i) maxRetries) as [Hlt | Hge]; [| reflexivity].
  destruct (fn tr) as [[v | error] tr1]; simpl; [reflexivity |].
  destruct (Qeq_dec (inject_Z i) (maxRetries - 1)); reflexivity.
Qed.

(** An iteration that passes the test [i < maxRetries] is one of the
    [ceil(maxRetries) - i] that remain. *)
Lemma iterations_remain i :
  (inject_Z i < maxRetries)%Q -> i < Qceiling maxRetries.
Proof.
  intros Hlt. rewrite Zlt_Qlt.
  eapply Qlt_le_trans; [exact Hlt | apply Qle_ceiling].
Qed.

(** No call is made, and nothing else happens, when [maxRetries <= 0]. *)
Lemma retry_loop_no_iteration delay tr :
  (maxRetries <= 0)%Q -> retry_loop fn maxRetries 0 delay tr = (FellThrough, tr).
Proof.
  intros Hle. rewrite retry_loop_step.
  destruct (Qlt_le_dec (inject_Z 0) maxRetries) as [Hlt | Hge]; [| reflexivity].
  exfalso. apply (Qlt_irrefl 0).
  eapply Qlt_le_trans; [exact Hlt | exact Hle].
Qed.

End RetryFacts.

Lemma inject_Z_pred (maxRetries : Z) :
  (inject_Z maxRetries - 1 == inject_Z (maxRetries - 1))%Q.
Proof.
  unfold Z.sub. rewrite inject_Z_plus. reflexivity.
Qed.

(** An attempt strictly before an integer below [maxRetries] is not the one
    the test [i === maxRetries - 1] singles out. *)
Lemma not_last_before (i k : Z) (maxRetries : Q) :
  i < k -> (inject_Z k < maxRetries)%Q -> ~ (inject_Z i == maxRetries - 1)%Q.
Proof.
  intros Hik Hk Heq.
  assert (Hle : (inject_Z (i + 1) <= inject_Z k)%Q) by (rewrite <- Zle_Qle; lia).
  rewrite inject_Z_plus, Heq in Hle.
  apply (Qlt_irrefl maxRetries). eapply Qle_lt_trans; [| exact Hk].
  eapply Qle_trans; [| exact Hle].
  unfold Qminus. rewrite <- Qplus_assoc.
  setoid_replace (- (1) + inject_Z 1)%Q with 0%Q by reflexivity.
  rewrite Qplus_0_r. apply Qle_refl.
Qed.

(** *** A whole number of attempts *)

Section IntegerRetryFacts.
Context {T : Type}.
Variable fn : M T.
Variable maxRetries : Z.

(** One iteration of the loop for an integer [maxRetries], with the tests as
    tests on integers. *)
Lemma retry_loop_step_integer i delay tr :
  retry_loop fn (inject_Z maxRetries) i delay tr =
  if i <? maxRetries then
    match fn tr with
    | (Ok v, tr1) => (Returned v, tr1)
    | (Throw error, tr1) =>
        if i =? maxRetries - 1 then (Rethrown error, tr1)
        else retry_loop fn (inject_Z maxRetries) (i + 1) (delay * 2)
               (tr1 ++ [ConsoleWarn (i + 1) delay error; Sleep delay])
    end
  else (FellThrough, tr).
Proof.
  rewrite retry_loop_step.
  destruct (Qlt_le_dec (inject_Z i) (inject_Z maxRetries)) as [Hlt | Hge].
  - rewrite <- Zlt_Qlt in Hlt. rewrite (proj2 (Z.ltb_lt _ _) Hlt).
    destruct (fn tr) as [[v | error] tr1]; [reflexivity |].
    destruct (Qeq_dec (inject_Z i) (inject_Z maxRetries - 1)) as [Heq | Hne].
    + assert (Hlast : i = maxRetries - 1)
        by (apply inject_Z_injective; rewrite <- inject_Z_pred; exact Heq).
      rewrite (proj2 (Z.eqb_eq _ _) Hlast). reflexivity.
    + destruct (Z.eqb_spec i (maxRetries - 1)) as [Heq | _]; [| reflexivity].
      exfalso. apply Hne. rewrite inject_Z_pred, Heq. reflexivity.
  - rewrite <- Zle_Qle in Hge.
    rewrite (proj2 (Z.ltb_ge _ _) Hge). reflexivity.
Qed.

(** The loop falls through only when it has nothing to iterate. *)
Lemma retry_loop_fell_through i delay tr :
  fst (retry_loop fn (inject_Z maxRetries) i delay tr) = FellThrough ->
  maxRetries <= i.
Proof.
  remember (Z.to_nat (maxRetries - i)) as n eqn:Hn.
  revert i delay tr Hn.
  induction n as [| n IH]; intros i delay tr Hn; [lia |].
  rewrite retry_loop_step_integer.
  destruct (Z.ltb_spec i maxRetries) as [Hlt | Hge]; [| intros _; exact Hge].
  destruct (fn tr) as [[v | error] tr1]; [discriminate |].
  destruct (Z.eqb_spec i (maxRetries - 1)) as [Hlast | Hmore]; [discriminate |].
  intros Hexit. apply IH in Hexit; lia.
Qed.

(** While iterations remain, the loop ends with what some call of [fn]
    returned or threw, and in the history that call left. *)
Lemma retry_loop_outcome i delay tr :
  i < maxRetries ->
  (exists v tr1 tr2,
      fn tr1 = (Ok v, tr2) /\
      retry_loop fn (inject_Z maxRetries) i delay tr = (Returned v, tr2)) \/
  (exists error tr1 tr2,
      fn tr1 = (Throw error, tr2) /\
      retry_loop fn (inject_Z maxRetries) i delay tr = (Rethrown error, tr2)).
Proof.
  remember (Z.to_nat (maxRetries - i)) as n eqn:Hn.
  revert i delay tr Hn.
  induction n as [| n IH]; intros i delay tr Hn Hlt; [lia |].
  rewrite retry_loop_step_integer, (proj2 (Z.ltb_lt _ _) Hlt).
  destruct (fn tr) as [[v | error] tr1] eqn:Hfn.
  - left. exists v, tr, tr1. split; [exact Hfn | reflexivity].
  - destruct (Z.eqb_spec i (maxRetries - 1)) as [Hlast | Hmore].
    + right. exists error, tr, tr1. split; [exact Hfn | reflexivity].
    + apply IH; lia.
Qed.

End IntegerRetryFacts.

Lemma invocations_app (a b : Trace) :
  invocations (a ++ b) = (invocations a + invocations b)%nat.
Proof. unfold invocations. rewrite filter_app, length_app. reflexivity. Qed.

Lemma sleeps_app (a b : Trace) : sleeps (a ++ b) = sleeps a ++ sleeps b.
Proof.
  induction a as [| e a IH]; simpl; [reflexivity |].
  destruct e; simpl; rewrite IH; reflexivity.
Qed.

Lemma failed_attempts_succ errs delay from n :
  failed_attempts errs delay from (S n) =
  failed_attempt errs delay from ++ failed_attempts errs delay (S from) n.
Proof. reflexivity. Qed.

Lemma invocations_failed_attempts errs delay from n :
  invocations (failed_attempts errs delay from n) = n.
Proof.
  revert from. induction n as [| n IH]; intros from; [reflexivity |].
  rewrite failed_attempts_succ, invocations_app, IH. reflexivity.
Qed.

Lemma sleeps_failed_attempts errs delay from n :
  sleeps (failed_attempts errs delay from n) =
  map (fun k => delay * 2 ^ Z.of_nat k) (seq from n).
Proof.
  revert from. induction n as [| n IH]; intros from; [reflexivity |].
  rewrite failed_attempts_succ, sleeps_app, IH. reflexivity.
Qed.

Section MockFacts.
Context {T : Type}.
Variable script : nat -> Outcome T.
Variable errs : nat -> exn.
Variable maxRetries : Q.
Variable delay : Z.

(** [m] failures in a row, all of them before an attempt that the test
    [i < maxRetries] still lets through, take the loop from iteration [j] to
    iteration [j + m]. *)
Lemma retry_loop_failures (m j : nat) (tr : Trace) :
  invocations tr = j ->
  (forall k, (j <= k < j + m)%nat -> script k = Throw (errs k)) ->
  (inject_Z (Z.of_nat (j + m)) < maxRetries)%Q ->
  retry_loop (mock script) maxRetries (Z.of_nat j) (delay * 2 ^ Z.of_nat j) tr =
  retry_loop (mock script) maxRetries (Z.of_nat (j + m))
    (delay * 2 ^ Z.of_nat (j + m)) (tr ++ failed_attempts errs delay j m).
Proof.
  revert j tr. induction m as [| m IH]; intros j tr Hcount Hfail Hlt.
  - rewrite Nat.add_0_r, app_nil_r. reflexivity.
  - rewrite retry_loop_step.
    destruct (Qlt_le_dec (inject_Z (Z.of_nat j)) maxRetries) as [_ | Hge].
    2:{ exfalso. apply (Qlt_irrefl maxRetries).
        eapply Qle_lt_trans; [exact Hge |]. eapply Qle_lt_trans; [| exact Hlt].
        rewrite <- Zle_Qle. lia. }
    unfold mock at 1. rewrite Hcount, (Hfail j) by lia.
    destruct (Qeq_dec (inject_Z (Z.of_nat j)) (maxRetries - 1)) as [Hlast | _].
    { exfalso. revert Hlast. apply (not_last_before _ (Z.of_nat (j + S m))); [lia | exact Hlt]. }
    replace (Z.of_nat j + 1) with (Z.of_nat (S j)) by lia.
    replace (delay * 2 ^ Z.of_nat j * 2) with (delay * 2 ^ Z.of_nat (S j))
      by (rewrite Nat2Z.inj_succ, Z.pow_succ_r by lia; ring).
    rewrite IH.
    + replace (S j + m)%nat with (j + S m)%nat by lia.
      f_equal. rewrite failed_attempts_succ. unfold failed_attempt.
      replace (Z.of_nat j + 1) with (Z.of_nat (S j)) by lia.
      rewrite <- !app_assoc. reflexivity.
    + rewrite !invocations_app, Hcount. unfold invocations.
      cbn [filter is_Invoked length]. lia.
    + intros k Hk. apply Hfail. lia.
    + replace (S j + m)%nat with (j + S m)%nat by lia. exact Hlt.
Qed.

(** The same from the first iteration. *)
Lemma retry_loop_first_failures (m : nat) (tr : Trace) :
  invocations tr = 0%nat ->
  (forall k, (k < m)%nat -> script k = Throw (errs k)) ->
  (inject_Z (Z.of_nat m) < maxRetries)%Q ->
  retry_loop (mock script) maxRetries 0 delay tr =
  retry_loop (mock script) maxRetries (Z.of_nat m)
    (delay * 2 ^ Z.of_nat m) (tr ++ failed_attempts errs delay 0 m).
Proof.
  intros Hfresh Hfail Hlt.
  pose proof (retry_loop_failures m 0 tr Hfresh) as Hloop.
  change (0 + m)%nat with m in Hloop. change (Z.of_nat 0) with 0 in Hloop.
  rewrite Z.pow_0_r, Z.mul_1_r in Hloop.
  apply Hloop; [| exact Hlt].
  intros k Hk. apply Hfail. lia.
Qed.

End MockFacts.

(** C3 (amended).  An operation that fails [N] times and then succeeds, with
    [N < maxRetries] ([maxRetries] whole or not), makes [retry] return the
    success value after exactly [N + 1] calls; the history is call, warning,
    sleep, ..., call, so the sleeps lie between consecutive attempts and last
    [delay], [2 * delay], [4 * delay], ... (1000, 2000, 4000 for the default
    delay).  An operation that always fails makes [retry], for every integer
    [maxRetries >= 1], call it exactly [maxRetries] times and rethrow the
    error of the last call as it is. *)
Theorem retry_backoff_schedule
  (T : Type) (errs : nat -> exn) (delay : Z) (tr0 : Trace) :
  invocations tr0 = 0%nat ->
  (forall (maxRetries : Q) (N : nat) (v : T),
      (inject_Z (Z.of_nat N) < maxRetries)%Q ->
      exists tr,
        retry (mock (fails_then_succeeds errs N v)) maxRetries delay tr0 = (Ok v, tr) /\
        tr = tr0 ++ failed_attempts errs delay 0 N ++ [Invoked] /\
        invocations tr = S N /\
        sleeps tr = sleeps tr0 ++ backoff delay N) /\
  (forall maxRetries : Z,
      1 <= maxRetries ->
      exists tr,
        retry (mock (always_fails (T := T) errs)) (inject_Z maxRetries) delay tr0
          = (Throw (errs (Z.to_nat maxRetries - 1)%nat), tr) /\
        tr = tr0 ++ failed_attempts errs delay 0 (Z.to_nat maxRetries - 1) ++ [Invoked] /\
        invocations tr = Z.to_nat maxRetries /\
        sleeps tr = sleeps tr0 ++ backoff delay (Z.to_nat maxRetries - 1)) /\
  backoff 1000 3 = [1000; 2000; 4000].
Proof.
  intros Hfresh. split; [| split; [| reflexivity]].
  - intros maxRetries N v HN. eexists. split; [| split; [reflexivity |]].
    + unfold retry.
      rewrite (retry_loop_first_failures (fails_then_succeeds errs N v) errs
                 maxRetries delay N tr0 Hfresh).
      * rewrite retry_loop_step.
        destruct (Qlt_le_dec (inject_Z (Z.of_nat N)) maxRetries) as [_ | Hge].
        2:{ exfalso. apply (Qlt_irrefl maxRetries).
            eapply Qle_lt_trans; [exact Hge | exact HN]. }
        unfold mock at 1, fails_then_succeeds at 1.
        rewrite invocations_app, Hfresh, invocations_failed_attempts.
        rewrite Nat.ltb_irrefl, <- app_assoc. reflexivity.
      * intros k Hk. unfold fails_then_succeeds.
        rewrite (proj2 (Nat.ltb_lt _ _)) by lia. reflexivity.
      * exact HN.
    + rewrite !invocations_app, !sleeps_app, Hfresh.
      rewrite invocations_failed_attempts, sleeps_failed_attempts.
      change (invocations [Invoked]) with 1%nat.
      change (sleeps [Invoked]) with (@nil Z).
      rewrite app_nil_r. split; [lia | reflexivity].
  - intros maxRetries Hpos. eexists. split; [| split; [reflexivity |]].
    + unfold retry.
      rewrite (retry_loop_first_failures (always_fails (T := T) errs) errs
                 (inject_Z maxRetries) delay (Z.to_nat maxRetries - 1) tr0 Hfresh).
      * rewrite retry_loop_step_integer, (proj2 (Z.ltb_lt _ _)) by lia.
        unfold mock at 1, always_fails at 1.
        rewrite invocations_app, Hfresh, invocations_failed_attempts.
        rewrite (proj2 (Z.eqb_eq _ _)) by lia.
        rewrite <- app_assoc. reflexivity.
      * intros k _. reflexivity.
      * rewrite <- Zlt_Qlt. lia.
    + rewrite !invocations_app, !sleeps_app, Hfresh.
      rewrite invocations_failed_attempts, sleeps_failed_attempts.
      change (invocations [Invoked]) with 1%nat.
      change (sleeps [Invoked]) with (@nil Z).
      rewrite app_nil_r. split; [lia | reflexivity].
Qed.

(** With the default arguments: two failures and then a success make three
    calls, 1000 ms and 2000 ms apart. *)
Lemma retry_backoff_schedule_witness :
  retry_default (mock (fails_then_succeeds (fun _ => ServiceError "503") 2 7)) []
  = (Ok 7,
     [ Invoked; ConsoleWarn 1 1000 (ServiceError "503"); Sleep 1000;
       Invoked; ConsoleWarn 2 2000 (ServiceError "503"); Sleep 2000;
       Invoked ]).
Proof.
  destruct (retry_backoff_schedule Z (fun _ => ServiceError "503") 1000 [] eq_refl)
    as [Hsucceeds _].
  destruct (Hsucceeds 3%Q 2%nat 7 ltac:(reflexivity)) as [tr [Hrun [Htrace _]]].
  unfold retry_default. rewrite Hrun, Htrace. reflexivity.
Defined.

(** C3 as stated fails in two places.  Where no attempt is made: with
    [maxRetries = 0] an operation that always fails, with the error 503, is
    never called, and what [retry] throws is its own error, not an error of
    the operation.  And where [maxRetries] is not whole: with
    [maxRetries = 2.5] the operation is called three times, a warning and a
    sleep follow each of the three calls, and what [retry] throws is again
    its own error. *)
Lemma retry_always_fails_counterexample :
  retry (mock (always_fails (T := unit) (fun _ => ServiceError "503"))) 0 1000 []
    = (Throw (Error "Retry failed"), []) /\
  retry (mock (always_fails (T := unit) (fun _ => ServiceError "503"))) (5 # 2) 1000 []
    = (Throw (Error "Retry failed"),
       [ Invoked; ConsoleWarn 1 1000 (ServiceError "503"); Sleep 1000;
         Invoked; ConsoleWarn 2 2000 (ServiceError "503"); Sleep 2000;
         Invoked; ConsoleWarn 3 4000 (ServiceError "503"); Sleep 4000 ]) /\
  (1 <= 5 # 2)%Q /\
  (forall k : nat,
      always_fails (T := unit) (fun _ => ServiceError "503") k
      = Throw (ServiceError "503")) /\
  Error "Retry failed" <> ServiceError "503".
Proof.
  split; [| split; [| split; [| split; [reflexivity | discriminate]]]].
  - unfold retry. rewrite retry_loop_step. reflexivity.
  - unfold retry. do 4 (rewrite retry_loop_step; simpl). reflexivity.
  - discriminate.
Qed.

(** C9 (amended).  Whatever number [maxRetries <= 0] is, [retry] reaches its
    trailing [throw new Error("Retry failed")] and [fn] is never called (the
    history is left as it was, whatever [fn] is).  For an integer
    [maxRetries] that is the only way to reach it: the loop falls through
    exactly when [maxRetries <= 0], and for [maxRetries >= 1] the outcome of
    [retry] is a value some call of [fn] returned or an error some call of
    [fn] threw. *)
Theorem retry_failed_iff_no_attempt
  (T : Type) (fn : M T) (delay : Z) (tr : Trace) :
  (forall maxRetries : Q,
     (maxRetries <= 0)%Q ->
     retry fn maxRetries delay tr = (Throw (Error "Retry failed"), tr) /\
     forall script : nat -> Outcome T,
       invocations (snd (retry (mock script) maxRetries delay tr)) = invocations tr) /\
  (forall maxRetries : Z,
     (fst (retry_loop fn (inject_Z maxRetries) 0 delay tr) = FellThrough
      <-> maxRetries <= 0) /\
     (1 <= maxRetries ->
        (exists v tr1 tr2,
            fn tr1 = (Ok v, tr2) /\
            retry fn (inject_Z maxRetries) delay tr = (Ok v, tr2)) \/
        (exists error tr1 tr2,
            fn tr1 = (Throw error, tr2) /\
            retry fn (inject_Z maxRetries) delay tr = (Throw error, tr2)))).
Proof.
  split.
  - intros maxRetries Hle. split.
    + unfold retry. rewrite retry_loop_no_iteration by exact Hle. reflexivity.
    + intros script. unfold retry.
      rewrite retry_loop_no_iteration by exact Hle. reflexivity.
  - intros maxRetries. split; [split |].
    + intros Hexit. apply retry_loop_fell_through in Hexit. exact Hexit.
    + intros Hle. rewrite retry_loop_no_iteration; [reflexivity |].
      rewrite Zle_Qle in Hle. exact Hle.
    + intros Hpos. unfold retry.
      destruct (retry_loop_outcome fn maxRetries 0 delay tr ltac:(lia))
        as [(v & tr1 & tr2 & Hfn & Hloop) | (error & tr1 & tr2 & Hfn & Hloop)];
        rewrite Hloop; [left; exists v | right; exists error];
        exists tr1, tr2; split; [exact Hfn | reflexivity | exact Hfn | reflexivity].
Qed.

(** No attempt is made for [maxRetries = 0]. *)
Lemma retry_failed_iff_no_attempt_witness :
  retry (mock (always_fails (T := unit) (fun _ => ServiceError "503"))) 0 1000 []
    = (Throw (Error "Retry failed"), []).
Proof.
  apply (retry_failed_iff_no_attempt unit
           (mock (always_fails (fun _ => ServiceError "503"))) 1000 []).
  discriminate.
Defined.

(** C9 as stated fails where [maxRetries] is not whole: [maxRetries = 1.5] is
    at least 1, yet an operation that always fails, with the error 503, is
    called twice, a warning and a sleep follow each call, and [retry] ends in
    its trailing [throw]: what it throws is its own error, which no call
    threw. *)
Lemma retry_fractional_count_counterexample :
  (1 <= 3 # 2)%Q /\
  ~ (3 # 2 <= 0)%Q /\
  retry (mock (always_fails (T := unit) (fun _ => ServiceError "503"))) (3 # 2) 1000 []
    = (Throw (Error "Retry failed"),
       [ Invoked; ConsoleWarn 1 1000 (ServiceError "503"); Sleep 1000;
         Invoked; ConsoleWarn 2 2000 (ServiceError "503"); Sleep 2000 ]) /\
  (forall k : nat,
      always_fails (T := unit) (fun _ => ServiceError "503") k
      = Throw (ServiceError "503")) /\
  Error "Retry failed" <> ServiceError "503".
Proof.
  split; [discriminate | split; [| split; [| split; [reflexivity | discriminate]]]].
  - intros Hle. apply Hle. reflexivity.
  - unfold retry. do 3 (rewrite retry_loop_step; simpl). reflexivity.
Qed.

(** ** The entry schema *)

Lemma accepts_z_string v : accepts z_string v <-> is_string v.
Proof.
  unfold accepts, is_string. split; intros [s Hs]; exists s.
  - destruct v; simpl in Hs; try discriminate. congruence.
  - subst v. reflexivity.
Qed.

Lemma parse_items_length {A} (t : ZodType A) items l :
  parse_items t items = Some l -> length l = length items.
Proof.
  revert l. induction items as [| v items IH]; simpl; intros l Hl.
  - injection Hl as <-. reflexivity.
  - destruct (t v) as [a |]; [| discriminate].
    destruct (parse_items t items) as [l' |]; [| discriminate].
    injection Hl as <-. simpl. rewrite (IH l' eq_refl). reflexivity.
Qed.

Lemma parse_items_accepts {A} (t : ZodType A) items :
  (exists l, parse_items t items = Some l) <-> Forall (accepts t) items.
Proof.
  induction items as [| v items IH]; simpl.
  - split; [constructor | exists []; reflexivity].
  - split.
    + intros [l Hl]. destruct (t v) as [a |] eqn:Hv; [| discriminate].
      destruct (parse_items t items) as [l' |]; [| discriminate].
      constructor; [exists a; exact Hv | apply IH; exists l'; reflexivity].
    + intros Hall. inversion Hall as [| ? ? [a Ha] Hrest]; subst.
      apply IH in Hrest as [l' Hl']. rewrite Ha, Hl'. eexists; reflexivity.
Qed.

Lemma accepts_z_array {A} (t : ZodType A) v :
  accepts (z_array t) v <-> is_list_of (accepts t) v.
Proof.
  unfold accepts at 1, is_list_of, z_array. split.
  - intros [l Hl]. destruct v; try discriminate.
    exists items. split; [reflexivity |]. apply parse_items_accepts. exists l. exact Hl.
  - intros [items [-> Hall]]. apply parse_items_accepts. exact Hall.
Qed.

Lemma z_array_length {A} (t : ZodType A) v l :
  z_array t v = Some l -> length l = item_count v.
Proof.
  destruct v; simpl; try discriminate. apply parse_items_length.
Qed.

Lemma is_list_of_iff (P Q : value -> Prop) v :
  (forall x, P x <-> Q x) -> is_list_of P v <-> is_list_of Q v.
Proof.
  intros HPQ. unfold is_list_of.
  split; intros [items [Hv Hall]]; exists items; (split; [exact Hv |]);
    revert Hall; apply Forall_impl; intros x; apply HPQ.
Qed.

Lemma accepts_z_min {A} n (t : ZodType A) v :
  accepts (z_min n (z_array t)) v <->
  accepts (z_array t) v /\ (n <= item_count v)%nat.
Proof.
  unfold accepts, z_min. split.
  - intros [l Hl]. destruct (z_array t v) as [l' |] eqn:Hv; [| discriminate].
    rewrite <- (z_array_length _ _ _ Hv).
    destruct (Nat.leb_spec n (length l')); [| discriminate].
    split; [exists l'; reflexivity | assumption].
  - intros [[l Hl] Hn]. rewrite Hl. rewrite <- (z_array_length _ _ _ Hl) in Hn.
    rewrite (proj2 (Nat.leb_le _ _) Hn). exists l. reflexivity.
Qed.

Lemma accepts_z_max_min {A} lo hi (t : ZodType A) v :
  accepts (z_max hi (z_min lo (z_array t))) v <->
  accepts (z_array t) v /\ (lo <= item_count v <= hi)%nat.
Proof.
  split.
  - intros [l Hl]. unfold z_max in Hl.
    destruct (z_min lo (z_array t) v) as [l1 |] eqn:Hmin; [| discriminate].
    assert (Hacc : accepts (z_min lo (z_array t)) v) by (exists l1; exact Hmin).
    apply accepts_z_min in Hacc as [Harr Hlo].
    unfold z_min in Hmin. destruct (z_array t v) as [l2 |] eqn:Hv; [| discriminate].
    destruct (lo <=? length l2)%nat; [| discriminate]. injection Hmin as <-.
    rewrite (z_array_length _ _ _ Hv) in Hl.
    destruct (Nat.leb_spec (item_count v) hi); [| discriminate].
    split; [exact Harr | lia].
  - intros [Harr [Hlo Hhi]].
    destruct (proj2 (accepts_z_min lo t v) (conj Harr Hlo)) as [l Hl].
    unfold accepts, z_max. rewrite Hl.
    unfold z_min in Hl. destruct (z_array t v) as [l1 |] eqn:Hv; [| discriminate].
    destruct (lo <=? length l1)%nat; [| discriminate]. injection Hl as <-.
    rewrite (z_array_length _ _ _ Hv), (proj2 (Nat.leb_le _ _) Hhi).
    eexists; reflexivity.
Qed.

Lemma accepts_z_optional {A} (t : ZodType A) v :
  accepts (z_optional t) v <-> v = VUndefined \/ accepts t v.
Proof.
  unfold accepts, z_optional. split.
  - intros [a Ha]. destruct v; [left; reflexivity | right ..];
      (destruct (t _) as [res |]; [exists res; reflexivity | discriminate]).
  - intros [-> | [a Ha]]; [eexists; reflexivity |].
    destruct v; try (rewrite Ha; eexists; reflexivity). eexists; reflexivity.
Qed.

Lemma z_optional_omitted {A} (t : ZodType A) v x :
  z_optional t v = Some x -> v = VUndefined -> x = None.
Proof. intros Hx ->. simpl in Hx. congruence. Qed.

Lemma accepts_z_example v :
  accepts z_example v <-> is_example v.
Proof.
  unfold accepts at 1, is_example, optional, omitted, z_example. split.
  - intros [e He]. destruct v; try discriminate. exists fields.
    destruct (z_string (prop fields "英")) as [en |] eqn:Hen; [| discriminate].
    destruct (z_optional z_string (prop fields "日")) as [ja |] eqn:Hja; [| discriminate].
    split; [reflexivity | split].
    + apply accepts_z_string. exists en. exact Hen.
    + assert (Hacc : accepts (z_optional z_string) (prop fields "日"))
        by (exists ja; exact Hja).
      apply accepts_z_optional in Hacc as [Hundef | Hstr];
        [left; exact Hundef | right; apply accepts_z_string; exact Hstr].
  - intros (o & -> & Hen & Hja).
    apply accepts_z_string in Hen as [en Hen].
    assert (Hacc : accepts (z_optional z_string) (prop o "日")).
    { apply accepts_z_optional.
      destruct Hja as [Hundef | Hstr];
        [left; exact Hundef | right; apply accepts_z_string; exact Hstr]. }
    destruct Hacc as [ja Hja']. rewrite Hen, Hja'. eexists; reflexivity.
Qed.

Lemma accepts_optional_string o key :
  accepts (z_optional z_string) (prop o key) <-> optional is_string o key.
Proof.
  rewrite accepts_z_optional, accepts_z_string. reflexivity.
Qed.

Lemma accepts_optional_strings o key :
  accepts (z_optional (z_array z_string)) (prop o key) <->
  optional (is_list_of is_string) o key.
Proof.
  rewrite accepts_z_optional, accepts_z_array.
  rewrite (is_list_of_iff _ _ _ accepts_z_string). reflexivity.
Qed.

Lemma accepts_meanings v :
  accepts (z_min 1 (z_array z_string)) v <-> is_meanings v.
Proof.
  rewrite accepts_z_min, accepts_z_array.
  rewrite (is_list_of_iff _ _ _ accepts_z_string). reflexivity.
Qed.

Lemma accepts_optional_examples o key :
  accepts (z_optional (z_max 3 (z_min 1 (z_array z_example)))) (prop o key) <->
  optional is_examples o key.
Proof.
  rewrite accepts_z_optional, accepts_z_max_min, accepts_z_array.
  rewrite (is_list_of_iff _ _ _ accepts_z_example). reflexivity.
Qed.

(** An object type accepts exactly the objects all of whose properties are
    accepted by the types declared for them. *)
Lemma accepts_z_entry (url_type : ZodType (option string)) v :
  accepts (z_entry url_type) v <->
  exists o, v = VObj o /\
    accepts z_string (prop o "単語") /\
    accepts (z_optional z_string) (prop o "発音記号") /\
    accepts (z_optional (z_array z_string)) (prop o "品詞") /\
    accepts (z_min 1 (z_array z_string)) (prop o "意味") /\
    accepts (z_optional z_string) (prop o "語源") /\
    accepts (z_optional (z_array z_string)) (prop o "コロケーション") /\
    accepts (z_optional (z_max 3 (z_min 1 (z_array z_example)))) (prop o "例文") /\
    accepts (z_optional z_string) (prop o "CEFR") /\
    accepts (z_optional (z_array z_string)) (prop o "類義語") /\
    accepts url_type (prop o "出典URL").
Proof.
  split.
  - intros [e He]. destruct v; try discriminate. exists fields.
    unfold z_entry in He.
    repeat match type of He with
           | match ?x with Some _ => _ | None => None end = Some _ =>
               let H := fresh "Hfield" in destruct x eqn:H; [| discriminate]
           end.
    split; [reflexivity |]. repeat split; eexists; eassumption.
  - intros (o & -> & [a1 H1] & [a2 H2] & [a3 H3] & [a4 H4] & [a5 H5] & [a6 H6]
            & [a7 H7] & [a8 H8] & [a9 H9] & [a10 H10]).
    unfold accepts, z_entry.
    rewrite H1, H2, H3, H4, H5, H6, H7, H8, H9, H10. eexists; reflexivity.
Qed.

Lemma accepts_Schema candidate :
  accepts Schema candidate <-> matches_schema candidate.
Proof.
  unfold Schema, matches_schema. rewrite accepts_z_entry.
  split; intros (o & -> & H1 & H2 & H3 & H4 & H5 & H6 & H7 & H8 & H9 & H10);
    exists o; (split; [reflexivity |]);
    repeat split;
    first [ apply accepts_z_string | apply accepts_optional_string
          | apply accepts_optional_strings | apply accepts_meanings
          | apply accepts_optional_examples ];
    assumption.
Qed.

Lemma parse_strings items l :
  parse_items z_string items = Some l -> items = map VStr l.
Proof.
  revert l. induction items as [| v items IH]; simpl; intros l Hl.
  - injection Hl as <-. reflexivity.
  - destruct v; simpl in Hl; try discriminate.
    destruct (parse_items z_string items) as [l1 |]; [| discriminate].
    injection Hl as <-. simpl. rewrite (IH l1 eq_refl). reflexivity.
Qed.

(** [parse] throws nothing but a [ZodError]. *)
Lemma parse_fails {A} (schema : ZodType A) candidate :
  ~ accepts schema candidate -> parse schema candidate = Throw ZodError.
Proof.
  intros Hno. unfold parse. destruct (schema candidate) as [a |] eqn:Ha.
  - exfalso. apply Hno. exists a. exact Ha.
  - reflexivity.
Qed.

Lemma parse_succeeds {A} (schema : ZodType A) candidate :
  (exists a, parse schema candidate = Ok a) <-> accepts schema candidate.
Proof.
  unfold parse, accepts.
  destruct (schema candidate) as [a |]; split; intros [b Hb];
    try discriminate; exists a; reflexivity.
Qed.

(** The fields of a parsed entry, read back from the candidate. *)
Lemma z_entry_fields (url_type : ZodType (option string)) o e :
  z_entry url_type (VObj o) = Some e ->
  z_string (prop o "単語") = Some (単語 e) /\
  z_optional z_string (prop o "発音記号") = Some (発音記号 e) /\
  z_optional (z_array z_string) (prop o "品詞") = Some (品詞 e) /\
  z_min 1 (z_array z_string) (prop o "意味") = Some (意味 e) /\
  z_optional z_string (prop o "語源") = Some (語源 e) /\
  z_optional (z_array z_string) (prop o "コロケーション") = Some (コロケーション e) /\
  z_optional (z_max 3 (z_min 1 (z_array z_example))) (prop o "例文") = Some (例文 e) /\
  z_optional z_string (prop o "CEFR") = Some (CEFR e) /\
  z_optional (z_array z_string) (prop o "類義語") = Some (類義語 e) /\
  url_type (prop o "出典URL") = Some (出典URL e).
Proof.
  unfold z_entry. intros He.
  repeat match type of He with
         | match ?x with Some _ => _ | None => None end = Some _ =>
             destruct x; [| discriminate]
         end.
  injection He as <-. simpl. repeat split; reflexivity.
Qed.

(** The word of a parsed entry is the string the candidate carries. *)
Lemma z_entry_word (url_type : ZodType (option string)) o e :
  parse (z_entry url_type) (VObj o) = Ok e -> prop o "単語" = VStr (単語 e).
Proof.
  unfold parse. intros Hparse.
  destruct (z_entry url_type (VObj o)) as [e1 |] eqn:He; [| discriminate].
  injection Hparse as ->. apply z_entry_fields in He as [Hword _].
  destruct (prop o "単語"); simpl in Hword; try discriminate. congruence.
Qed.

Lemma z_min_bound {A} n (t : ZodType (list A)) v l :
  z_min n t v = Some l -> (n <= length l)%nat.
Proof.
  unfold z_min. destruct (t v) as [l1 |]; [| discriminate].
  destruct (Nat.leb_spec n (length l1)); [| discriminate].
  intros Hl. injection Hl as <-. assumption.
Qed.

Lemma z_max_bound {A} n (t : ZodType (list A)) v l :
  z_max n t v = Some l -> (length l <= n)%nat /\ t v = Some l.
Proof.
  unfold z_max. destruct (t v) as [l1 |]; [| discriminate].
  destruct (Nat.leb_spec (length l1) n); [| discriminate].
  intros Hl. injection Hl as <-. split; [assumption | reflexivity].
Qed.

Lemma z_optional_present {A} (t : ZodType A) v a :
  z_optional t v = Some (Some a) -> t v = Some a.
Proof.
  unfold z_optional. destruct v; try discriminate;
    (destruct (t _) as [a1 |]; [| discriminate]); congruence.
Qed.

(** The item counts of a parsed entry, in either build. *)
Lemma z_entry_counts (url_type : ZodType (option string)) candidate e :
  parse (z_entry url_type) candidate = Ok e ->
  (1 <= length (意味 e))%nat /\
  (forall l, 例文 e = Some l -> (1 <= length l <= 3)%nat).
Proof.
  unfold parse. intros Hparse.
  destruct (z_entry url_type candidate) as [e1 |] eqn:He; [| discriminate].
  injection Hparse as ->.
  destruct candidate; try discriminate.
  apply z_entry_fields in He as (_ & _ & _ & Hmeanings & _ & _ & Hexamples & _).
  split; [exact (z_min_bound _ _ _ _ Hmeanings) |].
  intros l Hl. rewrite Hl in Hexamples.
  apply z_optional_present, z_max_bound in Hexamples as [Hmax Hmin].
  apply z_min_bound in Hmin. lia.
Qed.

(** C5.  [Schema.parse] succeeds exactly on the candidates that match the
    declared schema, and otherwise throws a [ZodError]; the entry it returns
    carries the candidate's word and meanings and has every omitted optional
    field absent; a candidate whose meanings are missing or empty, or that has
    more than 3 examples, is rejected. *)
Theorem Schema_parse_exact (candidate : value) :
  ((exists e, parse Schema candidate = Ok e) <-> matches_schema candidate) /\
  (~ matches_schema candidate -> parse Schema candidate = Throw ZodError) /\
  (forall o e,
      candidate = VObj o -> parse Schema candidate = Ok e ->
      prop o "単語" = VStr (単語 e) /\
      prop o "意味" = VArr (map VStr (意味 e)) /\
      (omitted o "発音記号" -> 発音記号 e = None) /\
      (omitted o "品詞" -> 品詞 e = None) /\
      (omitted o "語源" -> 語源 e = None) /\
      (omitted o "コロケーション" -> コロケーション e = None) /\
      (omitted o "例文" -> 例文 e = None) /\
      (omitted o "CEFR" -> CEFR e = None) /\
      (omitted o "類義語" -> 類義語 e = None) /\
      (omitted o "出典URL" -> 出典URL e = None)) /\
  (forall o,
      candidate = VObj o ->
      omitted o "意味" \/ prop o "意味" = VArr [] \/
        (3 < item_count (prop o "例文"))%nat ->
      parse Schema candidate = Throw ZodError).
Proof.
  split; [| split; [| split]].
  - rewrite parse_succeeds. apply accepts_Schema.
  - intros Hno. apply parse_fails. rewrite accepts_Schema. exact Hno.
  - intros o e -> Hparse.
    split; [exact (z_entry_word _ _ _ Hparse) |].
    unfold parse in Hparse.
    destruct (Schema (VObj o)) as [e' |] eqn:He; [| discriminate].
    injection Hparse as ->.
    apply z_entry_fields in He
      as (H1 & H2 & H3 & H4 & H5 & H6 & H7 & H8 & H9 & H10).
    split.
    + unfold z_min, z_array in H4. destruct (prop o "意味"); try discriminate.
      destruct (parse_items z_string items) as [l |] eqn:Hl; [| discriminate].
      destruct (1 <=? length l)%nat; [| discriminate].
      injection H4 as <-. rewrite (parse_strings _ _ Hl). reflexivity.
    + unfold omitted. repeat split; intros Hundef;
        eapply z_optional_omitted; eassumption.
  - intros o -> Hbad. apply parse_fails. rewrite accepts_Schema.
    intros (o' & Ho & _ & _ & _ & Hmeanings & _ & _ & Hexamples & _).
    injection Ho as <-.
    destruct Hbad as [Hmissing | [Hempty | Hmany]].
    + unfold omitted in Hmissing. rewrite Hmissing in Hmeanings.
      destruct Hmeanings as [_ Hcount]. simpl in Hcount. lia.
    + rewrite Hempty in Hmeanings.
      destruct Hmeanings as [_ Hcount]. simpl in Hcount. lia.
    + destruct Hexamples as [Hundef | [_ Hcount]].
      * unfold omitted in Hundef. rewrite Hundef in Hmany. simpl in Hmany. lia.
      * lia.
Qed.

(** The two fields the schema requires are enough; nothing else is filled in. *)
Lemma Schema_parse_exact_witness :
  parse Schema (VObj [("単語", VStr "ubiquitous");
                      ("意味", VArr [VStr "at or in all places"])])
  = Ok {| 単語 := "ubiquitous"; 発音記号 := None; 品詞 := None;
          意味 := ["at or in all places"]; 語源 := None; コロケーション := None;
          例文 := None; CEFR := None; 類義語 := None; 出典URL := None |} /\
  parse Schema (VObj [("単語", VStr "ubiquitous"); ("意味", VArr [])])
  = Throw ZodError.
Proof.
  split; [reflexivity |].
  eapply (proj2 (proj2 (proj2 (Schema_parse_exact _)))); [reflexivity |].
  right; left. reflexivity.
Defined.

(** C2 (what the two builds do).  [Schema] of [src/api/webhook.ts] accepts
    whatever string a candidate carries as [出典URL], while [Schema] of
    [src/dist/server.js] rejects every candidate whose [出典URL] is present and
    is not a string that passes zod's URL check. *)
Theorem Schema_url_format
  (is_url : string -> bool) :
  (forall url : string,
      parse Schema (VObj [("単語", VStr "ubiquitous");
                          ("意味", VArr [VStr "at or in all places"]);
                          ("出典URL", VStr url)])
      = Ok {| 単語 := "ubiquitous"; 発音記号 := None; 品詞 := None;
              意味 := ["at or in all places"]; 語源 := None; コロケーション := None;
              例文 := None; CEFR := None; 類義語 := None; 出典URL := Some url |}) /\
  (forall o : list (string * value),
      prop o "出典URL" <> VUndefined ->
      (forall s, prop o "出典URL" = VStr s -> is_url s = false) ->
      parse (Schema_dist is_url) (VObj o) = Throw ZodError).
Proof.
  split; [intros url; reflexivity |].
  intros o Hpresent Hbad. apply parse_fails. unfold Schema_dist.
  rewrite accepts_z_entry.
  intros (o' & Ho & _ & _ & _ & _ & _ & _ & _ & _ & _ & Hurl).
  injection Ho as <-.
  apply accepts_z_optional in Hurl as [Hundef | [s Hs]]; [contradiction |].
  unfold z_url in Hs.
  destruct (z_string (prop o "出典URL")) as [s' |] eqn:Hstr; [| discriminate].
  destruct (prop o "出典URL"); simpl in Hstr; try discriminate.
  injection Hstr as ->. rewrite (Hbad s' eq_refl) in Hs. discriminate.
Qed.

(** A URL check that refuses ["not a url"] makes the older build reject what
    the current one accepts. *)
Lemma Schema_url_format_witness :
  parse (Schema_dist (fun s => negb (String.eqb s "not a url")))
        (VObj [("単語", VStr "ubiquitous");
               ("意味", VArr [VStr "at or in all places"]);
               ("出典URL", VStr "not a url")])
  = Throw ZodError.
Proof.
  apply (Schema_url_format (fun s => negb (String.eqb s "not a url"))).
  - discriminate.
  - intros s Hs. injection Hs as <-. reflexivity.
Defined.

(** ** The entry builder *)

(** What a successful attempt of [buildEntry] went through. *)
Lemma buildEntry_attempt_ok env schema word tr e tr' :
  buildEntry_attempt env schema word tr = (Ok e, tr') ->
  exists text candidate,
    tr' = tr ++ [ChatCompletionsCreate (completion_request env word)] /\
    chat_completions_create env tr' = Ok (Some text) /\
    JSON_parse env text = Ok candidate /\
    parse schema candidate = Ok e.
Proof.
  unfold buildEntry_attempt, bind, lift, call, throw.
  destruct (new_OpenAI env (OPENAI_API_KEY env)) as [[] | error]; [| discriminate].
  destruct (chat_completions_create env _) as [[text |] | error] eqn:Hreply;
    try discriminate.
  destruct (truthy text); [| discriminate].
  destruct (JSON_parse env text) as [candidate | error] eqn:Hjson; [| discriminate].
  intros Hrun. injection Hrun as Hparse <-.
  exists text, candidate. repeat split; assumption.
Qed.

(** C1 (amended).  An entry returned by [buildEntry(word)] is what
    [Schema.parse] made of the JSON the model answered to the request for
    [word]; its [単語] field is the string that answer carries as [単語]; it has
    at least one meaning and, when it has examples, between 1 and 3. *)
Theorem buildEntry_word_is_answered_word
  (env : Env) (word : string) (tr tr' : Trace) (e : Entry) :
  buildEntry env word tr = (Ok e, tr') ->
  exists history text o,
    chat_completions_create env
      (history ++ [ChatCompletionsCreate (completion_request env word)])
      = Ok (Some text) /\
    JSON_parse env text = Ok (VObj o) /\
    parse Schema (VObj o) = Ok e /\
    prop o "単語" = VStr (単語 e) /\
    (1 <= length (意味 e))%nat /\
    (forall l, 例文 e = Some l -> (1 <= length l <= 3)%nat).
Proof.
  unfold buildEntry, retry_default, retry. intros Hrun.
  destruct (retry_loop_outcome (buildEntry_attempt env Schema word) 3 0 1000 tr
              ltac:(lia))
    as [(v & tr1 & tr2 & Hfn & Hloop) | (error & tr1 & tr2 & Hfn & Hloop)];
    change (inject_Z 3) with 3%Q in Hloop; rewrite Hloop in Hrun; [| discriminate].
  injection Hrun as -> ->.
  apply buildEntry_attempt_ok in Hfn as (text & candidate & -> & Hreply & Hjson & Hparse).
  assert (Hobj : exists o, candidate = VObj o).
  { destruct candidate; try discriminate. eexists; reflexivity. }
  destruct Hobj as [o ->].
  exists tr1, text, o.
  split; [exact Hreply | split; [exact Hjson | split; [exact Hparse |]]].
  split; [exact (z_entry_word _ _ _ Hparse) | exact (z_entry_counts _ _ _ Hparse)].
Qed.

(** Asked about "ubiquitous", the builder returns the entry the model
    answered, whose word is empty. *)
Lemma buildEntry_word_is_answered_word_witness :
  exists o,
    parse Schema (VObj o)
      = Ok {| 単語 := ""; 発音記号 := None; 品詞 := None;
              意味 := ["at or in all places"]; 語源 := None; コロケーション := None;
              例文 := None; CEFR := None; 類義語 := None; 出典URL := None |} /\
    prop o "単語" = VStr "".
Proof.
  assert (Hrun :
    buildEntry (scripted empty_word_answer empty_word_candidate) "ubiquitous" []
    = (Ok {| 単語 := ""; 発音記号 := None; 品詞 := None;
             意味 := ["at or in all places"]; 語源 := None; コロケーション := None;
             例文 := None; CEFR := None; 類義語 := None; 出典URL := None |},
       [ChatCompletionsCreate
          (completion_request (scripted empty_word_answer empty_word_candidate)
                              "ubiquitous")]))
    by (vm_compute; reflexivity).
  destruct (buildEntry_word_is_answered_word _ _ _ _ _ Hrun)
    as (history & answer & o & _ & _ & Hparse & Hword & _).
  exists o. split; [exact Hparse | exact Hword].
Defined.

(** C1 as stated fails: asked about "ubiquitous", [buildEntry] returns an
    entry whose [単語] is the empty string when that is what the model answers;
    the schema asks for a string and nothing compares it with [word]. *)
Lemma buildEntry_empty_word_counterexample :
  exists e tr,
    buildEntry (scripted empty_word_answer empty_word_candidate) "ubiquitous" []
      = (Ok e, tr) /\
    単語 e = "" /\
    単語 e <> "ubiquitous".
Proof.
  eexists; eexists. split; [vm_compute; reflexivity |].
  split; [reflexivity | discriminate].
Qed.

(** ** Histories only grow *)

Section Appends.
Variable P : Effect -> Prop.

Lemma appends_ret {A} (a : A) : appends P (ret a).
Proof. intros tr. exists []. rewrite app_nil_r. split; [reflexivity | constructor]. Qed.

Lemma appends_throw {A} (error : exn) : appends P (throw (A := A) error).
Proof. intros tr. exists []. rewrite app_nil_r. split; [reflexivity | constructor]. Qed.

Lemma appends_lift {A} (o : Outcome A) : appends P (lift o).
Proof. intros tr. exists []. rewrite app_nil_r. split; [reflexivity | constructor]. Qed.

Lemma appends_emit (e : Effect) : P e -> appends P (emit e).
Proof.
  intros He tr. exists [e]. split; [reflexivity | repeat constructor; exact He].
Qed.

Lemma appends_call {A} (request : Effect) (service : Trace -> Outcome A) :
  P request -> appends P (call request service).
Proof.
  intros He tr. exists [request]. split; [reflexivity | repeat constructor; exact He].
Qed.

Lemma appends_bind {A B} (m : M A) (k : A -> M B) :
  appends P m -> (forall a, appends P (k a)) -> appends P (bind m k).
Proof.
  intros Hm Hk tr. unfold bind.
  destruct (Hm tr) as (ext1 & Htr1 & Hext1).
  destruct (m tr) as [[a | error] tr1]; simpl in Htr1; subst tr1.
  - destruct (Hk a (tr ++ ext1)) as (ext2 & Htr2 & Hext2).
    exists (ext1 ++ ext2). rewrite Htr2, app_assoc.
    split; [reflexivity | apply Forall_app; split; assumption].
  - exists ext1. split; [reflexivity | assumption].
Qed.

Lemma appends_try_catch {A} (body : M A) (handler : exn -> M A) :
  appends P body -> (forall error, appends P (handler error)) ->
  appends P (try_catch body handler).
Proof.
  intros Hbody Hhandler tr. unfold try_catch.
  destruct (Hbody tr) as (ext1 & Htr1 & Hext1).
  destruct (body tr) as [[a | error] tr1]; simpl in Htr1; subst tr1.
  - exists ext1. split; [reflexivity | assumption].
  - destruct (Hhandler error (tr ++ ext1)) as (ext2 & Htr2 & Hext2).
    exists (ext1 ++ ext2). rewrite Htr2, app_assoc.
    split; [reflexivity | apply Forall_app; split; assumption].
Qed.

Hypothesis P_warn : forall attempt delay error, P (ConsoleWarn attempt delay error).
Hypothesis P_sleep : forall ms, P (Sleep ms).

Lemma appends_retry_loop {T} (fn : M T) (maxRetries : Q) (i delay : Z) (tr : Trace) :
  appends P fn ->
  exists ext, snd (retry_loop fn maxRetries i delay tr) = tr ++ ext /\ Forall P ext.
Proof.
  intros Hfn.
  remember (Z.to_nat (Qceiling maxRetries - i)) as n eqn:Hn.
  revert i delay tr Hn.
  induction n as [| n IH]; intros i delay tr Hn; rewrite retry_loop_step;
    (destruct (Qlt_le_dec (inject_Z i) maxRetries) as [Hlt | Hge];
       [apply iterations_remain in Hlt
       | exists []; rewrite app_nil_r; split; [reflexivity | constructor]]);
    [lia |].
  destruct (Hfn tr) as (ext1 & Htr1 & Hext1).
  destruct (fn tr) as [[v | error] tr1]; simpl in Htr1; subst tr1.
  - exists ext1. split; [reflexivity | assumption].
  - destruct (Qeq_dec (inject_Z i) (maxRetries - 1)) as [Hlast | Hmore].
    + exists ext1. split; [reflexivity | assumption].
    + destruct (IH (i + 1) (delay * 2)
                  ((tr ++ ext1) ++ [ConsoleWarn (i + 1) delay error; Sleep delay]))
        as (ext2 & Htr2 & Hext2); [lia |].
      exists (ext1 ++ [ConsoleWarn (i + 1) delay error; Sleep delay] ++ ext2).
      rewrite Htr2, <- !app_assoc. split; [reflexivity |].
      apply Forall_app; split; [assumption |].
      apply Forall_app; split; [| assumption].
      repeat constructor; [apply P_warn | apply P_sleep].
Qed.

Lemma appends_retry {T} (fn : M T) (maxRetries : Q) (delay : Z) :
  appends P fn -> appends P (retry fn maxRetries delay).
Proof.
  intros Hfn tr. unfold retry.
  destruct (appends_retry_loop fn maxRetries 0 delay tr Hfn) as (ext & Htr & Hext).
  destruct (retry_loop fn maxRetries 0 delay tr) as [[v | error |] tr1];
    simpl in Htr; subst tr1; exists ext; split; (reflexivity || assumption).
Qed.

End Appends.

Create HintDb appends.
#[export] Hint Resolve appends_ret appends_throw appends_lift : appends.

(** What was appended is determined by the two histories. *)
Lemma appended_unique (tr ext1 ext2 : Trace) :
  tr ++ ext1 = tr ++ ext2 -> ext1 = ext2.
Proof. apply app_inv_head. Qed.

(** [retry] sees of [fn] only what it computes. *)
Lemma retry_ext {T} (f g : M T) (maxRetries : Q) (delay : Z) (tr : Trace) :
  (forall tr1, f tr1 = g tr1) ->
  retry f maxRetries delay tr = retry g maxRetries delay tr.
Proof.
  intros Hfg. unfold retry.
  enough (Hloop : forall n i d tr1, Z.to_nat (Qceiling maxRetries - i) = n ->
            retry_loop f maxRetries i d tr1 = retry_loop g maxRetries i d tr1)
    by (rewrite (Hloop _ 0 delay tr eq_refl); reflexivity).
  induction n as [| n IH]; intros i d tr1 Hn;
    rewrite (retry_loop_step f), (retry_loop_step g), <- Hfg;
    (destruct (Qlt_le_dec (inject_Z i) maxRetries) as [Hlt | Hge];
       [apply iterations_remain in Hlt | reflexivity]);
    [lia |].
  destruct (f tr1) as [[v | error] tr2]; [reflexivity |].
  destruct (Qeq_dec (inject_Z i) (maxRetries - 1)); [reflexivity |].
  apply IH. lia.
Qed.

(** ** The persistence adapter *)

(** C4.  For the entry "ubiquitous" with one meaning and no optional field,
    [props] has the title text "ubiquitous", the meanings rich text
    "• at or in all places", and every other property unset.  The request
    [saveToNotion] hands to [notion.pages.create] is the parent database with
    these properties, and what [JSON.stringify] sends of it holds the title
    and the meanings and no other property: an unset property is absent,
    neither [null] nor empty.  The same holds in [server.js], where the title
    property is named [単語]. *)
Theorem ubiquitous_page_payload :
  props ubiquitous
  = VObj [
      ("Vocabulary",
         VObj [("title", VArr [VObj [("text", VObj [("content", VStr "ubiquitous")])]])]);
      ("発音記号", VUndefined);
      ("品詞", VUndefined);
      ("意味",
         VObj [("rich_text",
                VArr [VObj [("text", VObj [("content", VStr "• at or in all places")])]])]);
      ("語源", VUndefined);
      ("コロケーション", VUndefined);
      ("CEFR", VUndefined);
      ("類義語", VUndefined);
      ("出典URL", VUndefined) ] /\
  serialized (props ubiquitous)
  = VObj [
      ("Vocabulary",
         VObj [("title", VArr [VObj [("text", VObj [("content", VStr "ubiquitous")])]])]);
      ("意味",
         VObj [("rich_text",
                VArr [VObj [("text", VObj [("content", VStr "• at or in all places")])]])]) ] /\
  serialized (props_dist ubiquitous)
  = VObj [
      ("単語",
         VObj [("title", VArr [VObj [("text", VObj [("content", VStr "ubiquitous")])]])]);
      ("意味",
         VObj [("rich_text",
                VArr [VObj [("text", VObj [("content", VStr "• at or in all places")])]])]) ] /\
  (forall (env : Env) (tr : Trace) (page request : value),
      notion env = true ->
      request = VObj [ ("parent", VObj [("database_id", of_env (NOTION_DATABASE_ID env))]);
                       ("properties", props ubiquitous) ] ->
      pages_create env (tr ++ [PagesCreate request]) = Ok page ->
      saveToNotion env ubiquitous tr = (Ok tt, tr ++ [PagesCreate request]) /\
      serialized request
      = VObj [
          ("parent", VObj (field "database_id" (NOTION_DATABASE_ID env) VStr));
          ("properties",
             VObj [
               ("Vocabulary",
                  VObj [("title",
                         VArr [VObj [("text", VObj [("content", VStr "ubiquitous")])]])]);
               ("意味",
                  VObj [("rich_text",
                         VArr [VObj [("text",
                                      VObj [("content",
                                             VStr "• at or in all places")])]])]) ]) ]) /\
  (forall (env : Env) (tr : Trace) (page request : value),
      notion env = true ->
      request = VObj [ ("parent", VObj [("database_id", of_env (NOTION_DATABASE_ID env))]);
                       ("properties", props_dist ubiquitous) ] ->
      pages_create env (tr ++ [PagesCreate request]) = Ok page ->
      saveToNotion_dist env ubiquitous tr = (Ok tt, tr ++ [PagesCreate request]) /\
      serialized request
      = VObj [
          ("parent", VObj (field "database_id" (NOTION_DATABASE_ID env) VStr));
          ("properties",
             VObj [
               ("単語",
                  VObj [("title",
                         VArr [VObj [("text", VObj [("content", VStr "ubiquitous")])]])]);
               ("意味",
                  VObj [("rich_text",
                         VArr [VObj [("text",
                                      VObj [("content",
                                             VStr "• at or in all places")])]])]) ]) ]).
Proof.
  split; [reflexivity | split; [reflexivity | split; [reflexivity |]]].
  split; intros env tr page request Hnotion -> Hpage; split.
  - unfold saveToNotion, retry_default, retry. rewrite Hnotion.
    rewrite retry_loop_step. simpl.
    unfold saveToNotion_attempt, bind, call, page_request. rewrite Hpage. reflexivity.
  - destruct (NOTION_DATABASE_ID env); reflexivity.
  - unfold saveToNotion_dist, retry_default, retry. rewrite Hnotion.
    rewrite retry_loop_step. simpl.
    unfold saveToNotion_attempt, bind, call, page_request. rewrite Hpage. reflexivity.
  - destruct (NOTION_DATABASE_ID env); reflexivity.
Qed.

(** In the scripted environment the page is created with that payload. *)
Lemma ubiquitous_page_payload_witness :
  saveToNotion demo ubiquitous []
  = (Ok tt,
     [PagesCreate
        (VObj [
           ("parent", VObj [("database_id", VStr "notion-database-id")]);
           ("properties",
              VObj [
                ("Vocabulary",
                   VObj [("title",
                          VArr [VObj [("text", VObj [("content", VStr "ubiquitous")])]])]);
                ("発音記号", VUndefined);
                ("品詞", VUndefined);
                ("意味",
                   VObj [("rich_text",
                          VArr [VObj [("text",
                                       VObj [("content",
                                              VStr "• at or in all places")])]])]);
                ("語源", VUndefined);
                ("コロケーション", VUndefined);
                ("CEFR", VUndefined);
                ("類義語", VUndefined);
                ("出典URL", VUndefined) ]) ])]).
Proof.
  apply (proj1 (proj2 (proj2 (proj2 ubiquitous_page_payload)))
           demo [] (VObj [("id", VStr "page-1")]) _ eq_refl eq_refl eq_refl).
Defined.

(** C6.  Without a Notion token there is no client, and then
    [saveToNotion] throws "Notion client not initialized" at once: the history
    is left as it was, so [retry] was not entered (no warning, no sleep) and
    neither a page creation nor a block append was issued. *)
Theorem saveToNotion_not_initialized (env : Env) (e : Entry) (tr : Trace) :
  (NOTION_TOKEN env = None -> notion env = false) /\
  (notion env = false ->
   saveToNotion env e tr = (Throw (Error "Notion client not initialized"), tr)).
Proof.
  split.
  - intros Hunset. unfold notion. rewrite Hunset. reflexivity.
  - intros Hnone. unfold saveToNotion. rewrite Hnone. reflexivity.
Qed.

Lemma saveToNotion_not_initialized_witness :
  saveToNotion (without_notion demo)
               ubiquitous []
  = (Throw (Error "Notion client not initialized"), []).
Proof.
  apply (saveToNotion_not_initialized
           (without_notion demo)
           ubiquitous []).
  reflexivity.
Defined.

(** Without examples no block is appended. *)
Lemma saveToNotion_without_examples (env : Env) (e : Entry) :
  例文 e = None \/ 例文 e = Some [] ->
  appends (fun effect => ~ is_append_call effect) (saveToNotion env e).
Proof.
  intros Hnone. unfold saveToNotion.
  destruct (notion env); [| apply appends_throw].
  apply appends_retry.
  - intros attempt delay error [request Hrequest]. discriminate.
  - intros ms [request Hrequest]. discriminate.
  - unfold saveToNotion_attempt. apply appends_bind.
    + apply appends_call. intros [request Hrequest]. discriminate.
    + intros page. destruct Hnone as [-> | ->]; apply appends_ret.
Qed.

(** C7 (amended).  For an entry with exactly two examples, the first with
    source and a non-empty translation and the second with only a source, the
    block-append request holds exactly two bulleted list items: the first
    with the source followed by the translation after "  — ", the second
    with the source alone; it is sent after the page is created; and no
    entry makes [saveToNotion] append blocks unless its examples are present
    and non-empty. *)
Theorem saveToNotion_two_examples
  (env : Env) (e : Entry) (s1 t1 s2 : string) (tr : Trace) :
  例文 e = Some (two_examples s1 t1 s2) ->
  t1 <> "" ->
  (forall block_id : value,
      append_request block_id (two_examples s1 t1 s2)
      = VObj [
          ("block_id", block_id);
          ("children",
             VArr [ bulleted_list_item
                      [text_segment s1; text_segment ("  — " ++ t1)%string];
                    bulleted_list_item [text_segment s2] ]) ]) /\
  (forall (page block_id : value),
      notion env = true ->
      pages_create env (tr ++ [PagesCreate (page_request env (props e))]) = Ok page ->
      page_id page = Ok block_id ->
      blocks_children_append env
        (tr ++ [PagesCreate (page_request env (props e));
                BlocksChildrenAppend (append_request block_id (two_examples s1 t1 s2))])
        = Ok tt ->
      saveToNotion env e tr
      = (Ok tt,
         tr ++ [PagesCreate (page_request env (props e));
                BlocksChildrenAppend (append_request block_id (two_examples s1 t1 s2))])) /\
  (forall (other : Entry) (out : Outcome unit) (ext : Trace) (request : value),
      saveToNotion env other tr = (out, tr ++ ext) ->
      In (BlocksChildrenAppend request) ext ->
      exists s rest, 例文 other = Some (s :: rest)).
Proof.
  intros Hexamples Htranslated.
  assert (Htruthy : truthy t1 = true).
  { unfold truthy. destruct (String.eqb_spec t1 ""); [contradiction | reflexivity]. }
  split; [| split].
  - intros block_id. unfold append_request, two_examples, example_block. simpl.
    rewrite Htruthy. reflexivity.
  - intros page block_id Hnotion Hpage Hid Happend.
    unfold saveToNotion, retry_default, retry. rewrite Hnotion.
    rewrite retry_loop_step. simpl.
    unfold saveToNotion_attempt, bind, call, lift. rewrite Hpage, Hexamples.
    unfold two_examples at 1. rewrite Hid.
    rewrite <- app_assoc. simpl app. unfold two_examples in Happend |- *.
    rewrite Happend. reflexivity.
  - intros other out ext request Hrun Hin.
    destruct (例文 other) as [[| s rest] |] eqn:Hother.
    + exfalso.
      destruct (saveToNotion_without_examples env other (or_intror Hother) tr)
        as (ext' & Htr & Hnone).
      rewrite Hrun in Htr. simpl in Htr. apply appended_unique in Htr. subst ext'.
      rewrite Forall_forall in Hnone. apply (Hnone _ Hin). exists request. reflexivity.
    + exists s, rest. reflexivity.
    + exfalso.
      destruct (saveToNotion_without_examples env other (or_introl Hother) tr)
        as (ext' & Htr & Hnone).
      rewrite Hrun in Htr. simpl in Htr. apply appended_unique in Htr. subst ext'.
      rewrite Forall_forall in Hnone. apply (Hnone _ Hin). exists request. reflexivity.
Qed.

(** The two examples of the specification's test. *)
Lemma saveToNotion_two_examples_witness :
  saveToNotion demo
    (with_例文 (Some (two_examples "It is ubiquitous." "それは普遍的だ。"
                                   "Ubiquitous computing.")) ubiquitous) []
  = (Ok tt,
     [ PagesCreate
         (page_request demo
            (props (with_例文 (Some (two_examples "It is ubiquitous." "それは普遍的だ。"
                                                  "Ubiquitous computing.")) ubiquitous)));
       BlocksChildrenAppend
         (append_request (VStr "page-1")
            (two_examples "It is ubiquitous." "それは普遍的だ。"
                          "Ubiquitous computing.")) ]).
Proof.
  refine (proj1 (proj2 (saveToNotion_two_examples
            demo
            (with_例文 (Some (two_examples "It is ubiquitous." "それは普遍的だ。"
                                           "Ubiquitous computing.")) ubiquitous)
            "It is ubiquitous." "それは普遍的だ。" "Ubiquitous computing." []
            eq_refl _))
          (VObj [("id", VStr "page-1")]) (VStr "page-1") eq_refl eq_refl eq_refl eq_refl).
  discriminate.
Defined.

(** C7 as stated fails for a translation that is present and empty: the first
    of the two items then holds the source text alone. *)
Lemma empty_translation_counterexample :
  例文 (with_例文 (Some (two_examples "It is ubiquitous." "" "Ubiquitous computing."))
          ubiquitous)
  = Some [ {| 英 := "It is ubiquitous."; 日 := Some "" |};
           {| 英 := "Ubiquitous computing."; 日 := None |} ] /\
  saveToNotion demo
    (with_例文 (Some (two_examples "It is ubiquitous." "" "Ubiquitous computing."))
       ubiquitous) []
  = (Ok tt,
     [ PagesCreate
         (page_request demo
            (props ubiquitous));
       BlocksChildrenAppend
         (VObj [
            ("block_id", VStr "page-1");
            ("children",
               VArr [ bulleted_list_item [text_segment "It is ubiquitous."];
                      bulleted_list_item [text_segment "Ubiquitous computing."] ]) ]) ]) /\
  example_block {| 英 := "It is ubiquitous."; 日 := Some "" |}
  <> bulleted_list_item
       [text_segment "It is ubiquitous."; text_segment ("  — " ++ "")%string].
Proof. split; [reflexivity | split; [reflexivity | discriminate]]. Qed.

(** [saveToNotion] sees of an entry its properties and its examples. *)
Lemma saveToNotion_same_payload (env : Env) (e1 e2 : Entry) (tr : Trace) :
  props e1 = props e2 ->
  match 例文 e1, 例文 e2 with
  | Some l1, Some l2 => map example_block l1 = map example_block l2
  | None, None => True
  | _, _ => False
  end ->
  saveToNotion env e1 tr = saveToNotion env e2 tr.
Proof.
  intros Hprops Hexamples. unfold saveToNotion.
  destruct (notion env); [| reflexivity].
  apply retry_ext. intros tr1.
  unfold saveToNotion_attempt, bind, call, lift. rewrite Hprops.
  destruct (pages_create env _) as [page | error]; [| reflexivity].
  destruct (例文 e1) as [[| s1 l1] |], (例文 e2) as [[| s2 l2] |];
    try contradiction; try discriminate; try reflexivity.
  destruct (page_id page) as [block_id | error]; [| reflexivity].
  unfold append_request. rewrite Hexamples. reflexivity.
Qed.

(** C10.  An optional string field that is present and empty gives the same
    page properties, and the same run of [saveToNotion], as the field left
    out: the property is unset.  An example whose translation is present and
    empty is rendered with its source text alone, as one without translation. *)
Theorem empty_string_is_unset (env : Env) (e : Entry) (tr : Trace) :
  (props (with_発音記号 (Some "") e) = props (with_発音記号 None e) /\
   saveToNotion env (with_発音記号 (Some "") e) tr
   = saveToNotion env (with_発音記号 None e) tr) /\
  (props (with_語源 (Some "") e) = props (with_語源 None e) /\
   saveToNotion env (with_語源 (Some "") e) tr
   = saveToNotion env (with_語源 None e) tr) /\
  (props (with_CEFR (Some "") e) = props (with_CEFR None e) /\
   saveToNotion env (with_CEFR (Some "") e) tr
   = saveToNotion env (with_CEFR None e) tr) /\
  (props (with_出典URL (Some "") e) = props (with_出典URL None e) /\
   saveToNotion env (with_出典URL (Some "") e) tr
   = saveToNotion env (with_出典URL None e) tr) /\
  (forall (f : string -> value), if_string (Some "") f = VUndefined) /\
  (forall (s : string) (before after : list ExampleSentence),
      example_block {| 英 := s; 日 := Some "" |} = bulleted_list_item [text_segment s] /\
      example_block {| 英 := s; 日 := Some "" |} = example_block {| 英 := s; 日 := None |} /\
      saveToNotion env
        (with_例文 (Some (before ++ {| 英 := s; 日 := Some "" |} :: after)) e) tr
      = saveToNotion env
          (with_例文 (Some (before ++ {| 英 := s; 日 := None |} :: after)) e) tr).
Proof.
  assert (Hsame : forall e1 e2 : Entry,
             props e1 = props e2 -> 例文 e1 = 例文 e2 ->
             props e1 = props e2 /\ saveToNotion env e1 tr = saveToNotion env e2 tr).
  { intros e1 e2 Hprops Hexamples. split; [exact Hprops |].
    apply saveToNotion_same_payload; [exact Hprops |].
    rewrite Hexamples. destruct (例文 e2); [reflexivity | exact I]. }
  repeat split; try (apply Hsame; reflexivity).
  apply saveToNotion_same_payload; [reflexivity |].
  simpl. rewrite !map_app. reflexivity.
Qed.

(** An empty CEFR level and an empty translation leave no trace in what is
    sent. *)
Lemma empty_string_is_unset_witness :
  saveToNotion demo
    (with_CEFR (Some "") ubiquitous) []
  = (Ok tt,
     [PagesCreate
        (page_request demo
                      (props ubiquitous))]).
Proof.
  rewrite (proj2 (proj1 (proj2 (proj2
             (empty_string_is_unset
                demo ubiquitous []))))).
  reflexivity.
Defined.

(** ** The event dispatcher *)

Lemma confirmation_is_no_notice (e : Entry) :
  text_message (confirmation e) <> text_message failure_notice.
Proof. unfold text_message, confirmation, failure_notice. simpl. discriminate. Qed.

(** Closes [~ is_failure_notice e] for an effect that is no reply. *)
Ltac no_notice := intros [? Hnotice]; discriminate Hnotice.

(** The [try] block sends no failure notice. *)
Lemma processEvent_sends_no_notice (env : Env) (event : value) :
  appends (fun effect => ~ is_failure_notice effect) (processEvent env event).
Proof.
  assert (Hwarn : forall attempt delay error,
             ~ is_failure_notice (ConsoleWarn attempt delay error))
    by (intros attempt delay error; no_notice).
  assert (Hsleep : forall ms, ~ is_failure_notice (Sleep ms))
    by (intros ms; no_notice).
  unfold processEvent.
  apply appends_bind; [auto with appends | intros event_type].
  destruct (negb (same event_type "message")); [auto with appends |].
  apply appends_bind; [auto with appends | intros message].
  apply appends_bind; [auto with appends | intros message_type].
  destruct (negb (same message_type "text")); [auto with appends |].
  apply appends_bind; [auto with appends | intros text].
  apply appends_bind; [auto with appends | intros word].
  destruct (negb (truthy word)); [auto with appends |].
  apply appends_bind; [apply appends_emit; no_notice | intros _].
  apply appends_bind.
  { unfold buildEntry, retry_default. apply appends_retry; try assumption.
    unfold buildEntry_attempt.
    apply appends_bind; [auto with appends | intros _].
    apply appends_bind; [apply appends_call; no_notice | intros content].
    destruct content as [answer |]; [| auto with appends].
    destruct (truthy answer); [| auto with appends].
    apply appends_bind; [| intros candidate]; auto with appends. }
  intros entry.
  apply appends_bind; [apply appends_emit; no_notice | intros _].
  apply appends_bind.
  { unfold saveToNotion. destruct (notion env); [| auto with appends].
    unfold retry_default. apply appends_retry; try assumption.
    unfold saveToNotion_attempt.
    apply appends_bind; [apply appends_call; no_notice | intros page].
    destruct (例文 entry) as [[| s rest] |]; auto with appends.
    apply appends_bind; [auto with appends | intros block_id].
    apply appends_call. no_notice. }
  intros _.
  apply appends_bind; [apply appends_emit; no_notice | intros _].
  destruct (lineClient env); [| auto with appends].
  apply appends_bind; [auto with appends | intros replyToken].
  apply appends_call. intros [token Htoken].
  apply (f_equal (fun effect =>
                    match effect with ReplyMessage _ m => m | _ => VNull end))
    in Htoken.
  exact (confirmation_is_no_notice _ Htoken).
Qed.

(** An event without the property [type] is passed over by the [try] block. *)
Lemma processEvent_untyped (env : Env) (event : value) (tr : Trace) :
  untyped event -> processEvent env event tr = (Ok tt, tr).
Proof. destruct event; simpl; intros Huntyped; (contradiction || reflexivity). Qed.

(** On an object the [catch] clause always completes. *)
Lemma onEventError_completes (env : Env) (fields : list (string * value))
      (err : exn) (tr : Trace) :
  onEventError env (VObj fields) err tr
  = (Ok tt, tr ++ error_handling env (VObj fields) err tr).
Proof.
  unfold onEventError, error_handling, has_property, read, prop,
    bind, lift, emit, try_catch, call, ret.
  destruct (get fields "replyToken") as [token |]; [| reflexivity].
  destruct (lineClient env); [| reflexivity]. cbn [andb].
  rewrite <- !app_assoc. simpl app.
  destruct (replyMessage env _) as [[] | replyErr];
    [| rewrite <- app_assoc]; reflexivity.
Qed.

(** An event that is not [null]: whatever the [try] block throws, the
    [catch] clause completes. *)
Lemma handleEventSafely_caught (env : Env) (event : value) (err : exn) (tr tr1 : Trace) :
  not_null event ->
  processEvent env event tr = (Throw err, tr1) ->
  handleEventSafely env event tr = (Ok tt, tr1 ++ error_handling env event err tr1).
Proof.
  intros [Hnull Hundefined] Hthrown. unfold handleEventSafely, try_catch.
  rewrite Hthrown.
  destruct event; try (rewrite processEvent_untyped in Hthrown by exact I; discriminate);
    [contradiction | contradiction | apply onEventError_completes].
Qed.

Lemma handleEventSafely_completes (env : Env) (event : value) (tr : Trace) :
  not_null event -> exists tr1, handleEventSafely env event tr = (Ok tt, tr1).
Proof.
  intros Hevent.
  destruct (processEvent env event tr) as [[[] | err] tr1] eqn:Hrun.
  - exists tr1. unfold handleEventSafely, try_catch. rewrite Hrun. reflexivity.
  - rewrite (handleEventSafely_caught env event err tr tr1 Hevent Hrun).
    eexists; reflexivity.
Qed.

Lemma Promise_all_completes (env : Env) (evs : list value) (tr : Trace) :
  Forall not_null evs ->
  exists tr1, Promise_all (map (handleEventSafely env) evs) tr = (Ok tt, tr1).
Proof.
  intros Hevs. revert tr.
  induction Hevs as [| event evs Hevent _ IH]; intros tr; simpl.
  - exists tr. reflexivity.
  - destruct (handleEventSafely_completes env event tr Hevent) as [tr1 ->]. apply IH.
Qed.

(** The event [null]: reading [event.type] throws in the [try] block, the
    [catch] clause logs that error, and its test ["replyToken" in event]
    throws in turn, outside the inner [try]. *)
Lemma handleEventSafely_null (env : Env) (tr : Trace) :
  handleEventSafely env VNull tr
  = (Throw (TypeError "Cannot use 'in' operator to search for 'replyToken' in null"),
     tr ++ [ConsoleError "Error processing event:"
              (TypeError "Cannot read properties of null (reading 'type')")]).
Proof. reflexivity. Qed.

(** A rejected promise rejects the batch, whatever the other promises do. *)
Lemma Promise_all_rejected (before after : list (M unit)) (m : M unit) (tr : Trace) :
  (forall tr1, exists error tr2, m tr1 = (Throw error, tr2)) ->
  exists error tr1, Promise_all (before ++ m :: after) tr = (Throw error, tr1).
Proof.
  intros Hm. revert tr.
  induction before as [| p before IH]; intros tr; simpl.
  - destruct (Hm tr) as (error & tr2 & ->). eexists _, _. reflexivity.
  - destruct (p tr) as [[[] | error] tr1].
    + apply IH.
    + eexists _, _. reflexivity.
Qed.

(** C8 (amended).  On every event that is not [null], [handleEventSafely]
    completes without throwing.  An error thrown while building, persisting
    or replying is caught and logged; the fixed failure notice follows only
    when the event carries a reply token and the LINE client is configured; a
    failure of that reply is logged and not rethrown.  Without an error
    nothing is added.  So [Promise.all] over a batch without [null] resolves
    and the handler answers 200. *)
Theorem handleEventSafely_never_throws
  (env : Env) (event : value) (tr : Trace) :
  not_null event ->
  (exists tr1, handleEventSafely env event tr = (Ok tt, tr1)) /\
  (forall err tr1,
      processEvent env event tr = (Throw err, tr1) ->
      handleEventSafely env event tr
      = (Ok tt, tr1 ++ error_handling env event err tr1)) /\
  (forall tr1,
      processEvent env event tr = (Ok tt, tr1) ->
      handleEventSafely env event tr = (Ok tt, tr1)) /\
  (forall ext notice,
      snd (handleEventSafely env event tr) = tr ++ ext ->
      In notice ext -> is_failure_notice notice ->
      (exists fields token,
          event = VObj fields /\ get fields "replyToken" = Some token) /\
      lineClient env = true) /\
  (forall evs : list value,
      Forall not_null evs ->
      exists tr1,
        Promise_all (map (handleEventSafely env) evs) tr = (Ok tt, tr1) /\
        handler env {| method := "POST"; events := Some evs |} tr
        = (Ok {| status := 200; json := None |}, tr1)).
Proof.
  intros Hevent.
  split; [apply handleEventSafely_completes; exact Hevent |].
  split; [| split; [| split]].
  - intros err tr1 Hthrown. apply handleEventSafely_caught; assumption.
  - intros tr1 Hdone. unfold handleEventSafely, try_catch.
    rewrite Hdone. reflexivity.
  - intros ext notice Hext Hin Hnotice.
    destruct (processEvent_sends_no_notice env event tr) as (ext1 & Htr1 & Hnone).
    rewrite Forall_forall in Hnone.
    destruct (processEvent env event tr) as [[[] | err] tr1] eqn:Hrun;
      simpl in Htr1; subst tr1.
    + unfold handleEventSafely, try_catch in Hext. rewrite Hrun in Hext.
      simpl in Hext. apply appended_unique in Hext. subst ext1.
      exfalso. exact (Hnone _ Hin Hnotice).
    + rewrite (handleEventSafely_caught env event err tr _ Hevent Hrun) in Hext.
      simpl in Hext.
      rewrite <- app_assoc in Hext. apply appended_unique in Hext. subst ext.
      apply in_app_or in Hin as [Hin | Hin];
        [exfalso; exact (Hnone _ Hin Hnotice) |].
      unfold error_handling in Hin. destruct Hnotice as [token ->].
      destruct Hin as [Hlog | Hin]; [discriminate |].
      destruct event as [| | b | n | s | items | fields]; try contradiction.
      destruct (get fields "replyToken") as [t |] eqn:Htoken; [| contradiction].
      destruct (lineClient env); [| contradiction].
      split; [exists fields, t; split; [reflexivity | exact Htoken] | reflexivity].
  - intros evs Hevs. destruct (Promise_all_completes env evs tr Hevs) as [tr1 Hall].
    exists tr1. split; [exact Hall |].
    unfold handler, try_catch, bind. simpl. rewrite Hall. reflexivity.
Qed.

(** A batch of a text message whose page Notion refuses, an event that is no
    message, and a number is answered 200. *)
Lemma handleEventSafely_never_throws_witness :
  exists tr,
    handler (with_services (chat_completions_create demo)
               (fun _ => Throw (ServiceError "502"))
               (blocks_children_append demo) (replyMessage demo) demo)
      {| method := "POST";
         events := Some [ text_event "token-1" "ubiquitous";
                          VObj [("type", VStr "follow"); ("replyToken", VStr "token-2")];
                          VNum 7 ] |} []
    = (Ok {| status := 200; json := None |}, tr).
Proof.
  assert (Hevent : not_null (text_event "token-1" "ubiquitous"))
    by (split; discriminate).
  destruct (proj2 (proj2 (proj2 (proj2
              (handleEventSafely_never_throws
                 (with_services (chat_completions_create demo)
                    (fun _ => Throw (ServiceError "502"))
                    (blocks_children_append demo) (replyMessage demo) demo)
                 (text_event "token-1" "ubiquitous") [] Hevent))))
              [ text_event "token-1" "ubiquitous";
                VObj [("type", VStr "follow"); ("replyToken", VStr "token-2")];
                VNum 7 ])
    as [tr [_ Hhandler]].
  - repeat constructor; discriminate.
  - exists tr. exact Hhandler.
Defined.

(** C8 as stated fails on the event [null], which the unchecked body of a
    request may hold: [handleEventSafely] rejects, with the error of its own
    [catch] clause; [Promise.all] over the batch [[null]] rejects, and the
    handler answers 500, whatever the environment ([demo] here). *)
Lemma handleEventSafely_null_counterexample :
  handleEventSafely demo VNull []
  = (Throw (TypeError "Cannot use 'in' operator to search for 'replyToken' in null"),
     [ConsoleError "Error processing event:"
        (TypeError "Cannot read properties of null (reading 'type')")]) /\
  Promise_all (map (handleEventSafely demo) [VNull]) []
  = (Throw (TypeError "Cannot use 'in' operator to search for 'replyToken' in null"),
     [ConsoleError "Error processing event:"
        (TypeError "Cannot read properties of null (reading 'type')")]) /\
  handler demo {| method := "POST"; events := Some [VNull] |} []
  = (Ok {| status := 500;
           json := Some (VObj [("error", VStr "Internal server error")]) |},
     [ ConsoleError "Error processing event:"
         (TypeError "Cannot read properties of null (reading 'type')");
       ConsoleError "Webhook error:"
         (TypeError "Cannot use 'in' operator to search for 'replyToken' in null") ]).
Proof. split; [reflexivity | split; reflexivity]. Qed.

(** Events that are not text messages, and text that trims to nothing, are
    passed over: no call is made and nothing is logged. *)
Example not_a_text_message_is_ignored :
  handleEventSafely demo
    (VObj [("type", VStr "follow"); ("replyToken", VStr "token-1")]) []
  = (Ok tt, []) /\
  handleEventSafely demo
    (VObj [ ("type", VStr "message");
            ("message", VObj [("type", VStr "sticker")]);
            ("replyToken", VStr "token-2") ]) []
  = (Ok tt, []) /\
  handleEventSafely demo (text_event "token-3" (" " ++ utf8 [227; 128; 128; 10]%nat)%string) []
  = (Ok tt, []).
Proof. repeat split; vm_compute; reflexivity. Qed.

(** [trim] removes white space at both ends and nothing inside. *)
Example trim_example :
  trim ("  at or " ++ utf8 [194; 160]%nat ++ "in" ++ utf8 [10; 226; 128; 175]%nat)%string
  = ("at or " ++ utf8 [194; 160]%nat ++ "in")%string.
Proof. vm_compute. reflexivity. Qed.

(** * Further properties of the code *)

(** ** retry: successful operations, and how often it calls *)

(** An operation that succeeds at its first call goes through [retry]
    untouched: same value, same history, no warning and no sleep.  With
    [maxRetries = 1] that holds for failures too: [retry] is the operation. *)
Theorem retry_transparent
  (T : Type) (fn : M T) (maxRetries : Q) (delay : Z) (tr : Trace) :
  (forall v tr1,
      (1 <= maxRetries)%Q -> fn tr = (Ok v, tr1) ->
      retry fn maxRetries delay tr = (Ok v, tr1)) /\
  retry fn 1 delay tr = fn tr.
Proof.
  split.
  - intros v tr1 Hpos Hfn. unfold retry. rewrite retry_loop_step.
    destruct (Qlt_le_dec (inject_Z 0) maxRetries) as [_ | Hge].
    + rewrite Hfn. reflexivity.
    + exfalso. assert (Hle : (1 <= 0)%Q) by (eapply Qle_trans; eassumption).
      apply Hle. reflexivity.
  - unfold retry. rewrite retry_loop_step. simpl.
    destruct (fn tr) as [[v | error] tr1]; reflexivity.
Qed.

Lemma retry_transparent_witness :
  retry_default (mock (fails_then_succeeds (fun _ => ServiceError "503") 0 7)) []
  = (Ok 7, [Invoked]).
Proof.
  apply (proj1 (retry_transparent Z
                  (mock (fails_then_succeeds (fun _ => ServiceError "503") 0 7))
                  3 1000 [])); [discriminate | reflexivity].
Defined.

Lemma count_app (p : Effect -> bool) (a b : Trace) :
  count p (a ++ b) = (count p a + count p b)%nat.
Proof. unfold count. rewrite filter_app, length_app. reflexivity. Qed.

Section CallBounds.
Context {T : Type}.
Variable fn : M T.
Variable maxRetries : Q.
Variable p : Effect -> bool.
Variable k : nat.
Hypothesis fn_adds : adds_at_most p k fn.
Hypothesis warn_uncounted : forall attempt delay error, p (ConsoleWarn attempt delay error) = false.
Hypothesis sleep_uncounted : forall ms, p (Sleep ms) = false.

(** From iteration [i] on, the loop adds at most [k] counted effects for
    each of the iterations that remain. *)
Lemma retry_loop_adds (i delay : Z) (tr : Trace) :
  exists ext,
    snd (retry_loop fn maxRetries i delay tr) = tr ++ ext /\
    (count p ext <= Z.to_nat (Qceiling maxRetries - i) * k)%nat.
Proof.
  remember (Z.to_nat (Qceiling maxRetries - i)) as n eqn:Hn.
  revert i delay tr Hn.
  induction n as [| n IH]; intros i delay tr Hn; rewrite retry_loop_step;
    (destruct (Qlt_le_dec (inject_Z i) maxRetries) as [Hlt | Hge];
       [apply iterations_remain in Hlt
       | exists []; rewrite app_nil_r; split;
         [reflexivity | unfold count; simpl; lia]]);
    [lia |].
  destruct (fn_adds tr) as (ext1 & Htr1 & Hext1).
  destruct (fn tr) as [[v | error] tr1]; simpl in Htr1; subst tr1.
  - exists ext1. split; [reflexivity | nia].
  - destruct (Qeq_dec (inject_Z i) (maxRetries - 1)).
    + exists ext1. split; [reflexivity | nia].
    + destruct (IH (i + 1) (delay * 2)
                  ((tr ++ ext1) ++ [ConsoleWarn (i + 1) delay error; Sleep delay])
                  ltac:(lia))
        as (ext2 & Htr2 & Hext2).
      exists (ext1 ++ [ConsoleWarn (i + 1) delay error; Sleep delay] ++ ext2).
      rewrite Htr2, <- !app_assoc. split; [reflexivity |].
      rewrite !count_app. unfold count at 2. simpl filter.
      rewrite warn_uncounted, sleep_uncounted. simpl length. nia.
Qed.

Lemma retry_adds (delay : Z) :
  adds_at_most p (Z.to_nat (Qceiling maxRetries) * k) (retry fn maxRetries delay).
Proof.
  intros tr. unfold retry.
  destruct (retry_loop_adds 0 delay tr) as (ext & Htr & Hext).
  rewrite Z.sub_0_r in Hext.
  destruct (retry_loop fn maxRetries 0 delay tr) as [[v | error |] tr1];
    simpl in Htr; subst tr1; exists ext; split; (reflexivity || assumption).
Qed.

End CallBounds.

(** Each iteration sleeps at most once, when the operation itself does not
    sleep. *)
Lemma retry_loop_sleeps_each {T} (fn : M T) (maxRetries : Q) (i delay : Z) (tr : Trace) :
  adds_at_most is_Sleep 0 fn ->
  exists ext,
    snd (retry_loop fn maxRetries i delay tr) = tr ++ ext /\
    (count is_Sleep ext <= Z.to_nat (Qceiling maxRetries - i))%nat.
Proof.
  intros Hfn.
  remember (Z.to_nat (Qceiling maxRetries - i)) as n eqn:Hn.
  revert i delay tr Hn.
  induction n as [| n IH]; intros i delay tr Hn; rewrite retry_loop_step;
    (destruct (Qlt_le_dec (inject_Z i) maxRetries) as [Hlt | Hge];
       [apply iterations_remain in Hlt
       | exists []; rewrite app_nil_r; split;
         [reflexivity | unfold count; simpl; lia]]);
    [lia |].
  destruct (Hfn tr) as (ext1 & Htr1 & Hext1).
  destruct (fn tr) as [[v | error] tr1]; simpl in Htr1; subst tr1.
  - exists ext1. split; [reflexivity | lia].
  - destruct (Qeq_dec (inject_Z i) (maxRetries - 1)).
    + exists ext1. split; [reflexivity | lia].
    + destruct (IH (i + 1) (delay * 2)
                  ((tr ++ ext1) ++ [ConsoleWarn (i + 1) delay error; Sleep delay])
                  ltac:(lia))
        as (ext2 & Htr2 & Hext2).
      exists (ext1 ++ [ConsoleWarn (i + 1) delay error; Sleep delay] ++ ext2).
      rewrite Htr2, <- !app_assoc. split; [reflexivity |].
      rewrite !count_app.
      change (count is_Sleep [ConsoleWarn (i + 1) delay error; Sleep delay])
        with 1%nat. lia.
Qed.

(** For an integer [maxRetries] the loop sleeps only between attempts: at most
    once less than the iterations that remain, when the operation itself does
    not sleep. *)
Lemma retry_loop_sleeps {T} (fn : M T) (maxRetries i delay : Z) (tr : Trace) :
  adds_at_most is_Sleep 0 fn ->
  exists ext,
    snd (retry_loop fn (inject_Z maxRetries) i delay tr) = tr ++ ext /\
    (count is_Sleep ext <= Z.to_nat (maxRetries - i) - 1)%nat.
Proof.
  intros Hfn.
  remember (Z.to_nat (maxRetries - i)) as n eqn:Hn.
  revert i delay tr Hn.
  induction n as [| n IH]; intros i delay tr Hn; rewrite retry_loop_step_integer.
  - rewrite (proj2 (Z.ltb_ge _ _)) by lia.
    exists []. rewrite app_nil_r. split; [reflexivity | unfold count; simpl; lia].
  - rewrite (proj2 (Z.ltb_lt _ _)) by lia.
    destruct (Hfn tr) as (ext1 & Htr1 & Hext1).
    destruct (fn tr) as [[v | error] tr1]; simpl in Htr1; subst tr1.
    + exists ext1. split; [reflexivity | lia].
    + destruct (Z.eqb_spec i (maxRetries - 1)) as [Hlast | Hmore].
      * exists ext1. split; [reflexivity | lia].
      * destruct (IH (i + 1) (delay * 2)
                    ((tr ++ ext1) ++ [ConsoleWarn (i + 1) delay error; Sleep delay])
                    ltac:(lia))
          as (ext2 & Htr2 & Hext2).
        exists (ext1 ++ [ConsoleWarn (i + 1) delay error; Sleep delay] ++ ext2).
        rewrite Htr2, <- !app_assoc. split; [reflexivity |].
        rewrite !count_app. change (count is_Sleep [ConsoleWarn (i + 1) delay error; Sleep delay])
          with 1%nat. lia.
Qed.

(** Whatever the operation answers and whatever number [maxRetries] is,
    [retry] calls the operation at most [ceil(maxRetries)] times (not at all
    for [maxRetries <= 0]) and sleeps at most as often.  For an integer
    [maxRetries] that is at most [maxRetries] calls and at most
    [maxRetries - 1] sleeps. *)
Theorem retry_call_bound
  (T : Type) (script : nat -> Outcome T) (delay : Z) (tr : Trace) :
  (forall maxRetries : Q,
     exists ext,
       snd (retry (mock script) maxRetries delay tr) = tr ++ ext /\
       (count is_Invoked ext <= Z.to_nat (Qceiling maxRetries))%nat /\
       (count is_Sleep ext <= Z.to_nat (Qceiling maxRetries))%nat) /\
  (forall maxRetries : Z,
     exists ext,
       snd (retry (mock script) (inject_Z maxRetries) delay tr) = tr ++ ext /\
       (count is_Invoked ext <= Z.to_nat maxRetries)%nat /\
       (count is_Sleep ext <= Z.to_nat maxRetries - 1)%nat).
Proof.
  assert (Hcalls : adds_at_most is_Invoked 1 (mock script))
    by (intros tr1; exists [Invoked]; split; [reflexivity | unfold count; simpl; lia]).
  assert (Hsleeps : adds_at_most is_Sleep 0 (mock script))
    by (intros tr1; exists [Invoked]; split; [reflexivity | unfold count; simpl; lia]).
  assert (Hbound : forall maxRetries : Q,
            exists ext,
              snd (retry (mock script) maxRetries delay tr) = tr ++ ext /\
              snd (retry_loop (mock script) maxRetries 0 delay tr) = tr ++ ext /\
              (count is_Invoked ext <= Z.to_nat (Qceiling maxRetries))%nat /\
              (count is_Sleep ext <= Z.to_nat (Qceiling maxRetries))%nat).
  { intros maxRetries.
    destruct (retry_adds (mock script) maxRetries is_Invoked 1 Hcalls
                ltac:(reflexivity) ltac:(reflexivity) delay tr)
      as (ext & Htr & Hext).
    destruct (retry_loop_sleeps_each (mock script) maxRetries 0 delay tr Hsleeps)
      as (ext' & Htr' & Hext').
    rewrite Z.sub_0_r in Hext'.
    exists ext. split; [exact Htr |].
    unfold retry in Htr.
    destruct (retry_loop (mock script) maxRetries 0 delay tr) as [[v | error |] tr1];
      simpl in Htr, Htr'; subst tr1; apply appended_unique in Htr'; subst ext';
      (split; [reflexivity | split; [lia | exact Hext']]). }
  split.
  - intros maxRetries.
    destruct (Hbound maxRetries) as (ext & Htr & _ & Hcount & Hsleep).
    exists ext. split; [exact Htr | split; assumption].
  - intros maxRetries.
    destruct (Hbound (inject_Z maxRetries)) as (ext & Htr & Hloop & Hcount & _).
    rewrite Qceiling_Z in Hcount.
    destruct (retry_loop_sleeps (mock script) maxRetries 0 delay tr Hsleeps)
      as (ext' & Htr' & Hext').
    rewrite Z.sub_0_r in Hext'.
    rewrite Hloop in Htr'. apply appended_unique in Htr'. subst ext'.
    exists ext. split; [exact Htr | split; assumption].
Qed.

(** ** The schema: what it rejects, what it ignores, what it gives back *)

(** An optional property may be left out, not set to [null]; and only an
    object is an entry: a candidate that is no object, or that sets one of the
    eight optional properties to [null], is rejected with a [ZodError], in
    either build. *)
Theorem Schema_rejects_null (candidate : value) :
  (forall o, candidate <> VObj o) \/
  (exists o key, candidate = VObj o /\ In key optional_keys /\ prop o key = VNull) ->
  parse Schema candidate = Throw ZodError /\
  (forall is_url, parse (Schema_dist is_url) candidate = Throw ZodError).
Proof.
  intros Hbad.
  assert (Hentry : forall url_type : ZodType (option string),
             url_type VNull = None -> ~ accepts (z_entry url_type) candidate).
  { intros url_type Hurl. rewrite accepts_z_entry.
    intros (o & -> & _ & [a2 H2] & [a3 H3] & _ & [a5 H5] & [a6 H6] & [a7 H7]
            & [a8 H8] & [a9 H9] & [a10 H10]).
    destruct Hbad as [Hnot | (o' & key & Ho & Hkey & Hnull)];
      [exact (Hnot o eq_refl) |].
    injection Ho as <-. simpl in Hkey.
    repeat (destruct Hkey as [<- | Hkey];
            [rewrite Hnull in *; try discriminate; congruence |]).
    contradiction. }
  split; [| intros is_url]; apply parse_fails, Hentry; reflexivity.
Qed.

(** The model often writes [null] for what it does not know. *)
Lemma Schema_rejects_null_witness :
  parse Schema (VObj [("単語", VStr "ubiquitous");
                      ("意味", VArr [VStr "at or in all places"]);
                      ("語源", VNull)])
  = Throw ZodError.
Proof.
  apply Schema_rejects_null. right.
  exists [("単語", VStr "ubiquitous");
          ("意味", VArr [VStr "at or in all places"]);
          ("語源", VNull)], "語源".
  split; [reflexivity | split; [| reflexivity]].
  simpl. right; right; left. reflexivity.
Defined.

Lemma get_unknown (o1 o2 : list (string * value)) (k key : string) (v : value) :
  key <> k -> get (o1 ++ (k, v) :: o2) key = get (o1 ++ o2) key.
Proof.
  intros Hother. induction o1 as [| [k1 v1] o1 IH]; simpl.
  - destruct (String.eqb_spec k key); [congruence | reflexivity].
  - rewrite IH. reflexivity.
Qed.

Lemma prop_unknown (o1 o2 : list (string * value)) (k key : string) (v : value) :
  key <> k -> prop (o1 ++ (k, v) :: o2) key = prop (o1 ++ o2) key.
Proof. intros Hother. unfold prop. rewrite get_unknown by exact Hother. reflexivity. Qed.

(** A property the schema does not declare changes nothing: wherever it
    stands in the candidate, the outcome of [parse] is the same as without it,
    in either build. *)
Theorem Schema_ignores_unknown_keys
  (o1 o2 : list (string * value)) (k : string) (v : value) :
  ~ In k schema_keys ->
  parse Schema (VObj (o1 ++ (k, v) :: o2)) = parse Schema (VObj (o1 ++ o2)) /\
  (forall is_url,
      parse (Schema_dist is_url) (VObj (o1 ++ (k, v) :: o2))
      = parse (Schema_dist is_url) (VObj (o1 ++ o2))).
Proof.
  intros Hunknown.
  assert (Hentry : forall url_type : ZodType (option string),
             z_entry url_type (VObj (o1 ++ (k, v) :: o2))
             = z_entry url_type (VObj (o1 ++ o2))).
  { intros url_type. unfold z_entry.
    rewrite !(prop_unknown o1 o2 k _ v);
      try reflexivity;
      intros <-; apply Hunknown; simpl; tauto. }
  unfold parse, Schema, Schema_dist.
  split; [| intros is_url]; rewrite Hentry; reflexivity.
Qed.

Lemma Schema_ignores_unknown_keys_witness :
  parse Schema (VObj [("単語", VStr "ubiquitous");
                      ("comment", VNum 1);
                      ("意味", VArr [VStr "at or in all places"])])
  = Ok ubiquitous.
Proof.
  pose proof (proj1 (Schema_ignores_unknown_keys
                       [("単語", VStr "ubiquitous")]
                       [("意味", VArr [VStr "at or in all places"])]
                       "comment" (VNum 1)
                       ltac:(simpl; intuition discriminate))) as Hsame.
  cbn [app] in Hsame. rewrite Hsame. reflexivity.
Defined.

Lemma parse_items_strings (l : list string) :
  parse_items z_string (map VStr l) = Some l.
Proof. induction l as [| s l IH]; simpl; [| rewrite IH]; reflexivity. Qed.

Lemma z_example_to_json (s : ExampleSentence) : z_example (example_to_json s) = Some s.
Proof. destruct s as [en [ja |]]; reflexivity. Qed.

Lemma parse_items_examples (l : list ExampleSentence) :
  parse_items z_example (map example_to_json l) = Some l.
Proof.
  induction l as [| s l IH]; [reflexivity |].
  cbn [map parse_items]. rewrite z_example_to_json, IH. reflexivity.
Qed.

(** Reading the properties of an entry written as JSON. *)
Lemma to_json_props (e : Entry) :
  exists o, to_json e = VObj o /\
    prop o "単語" = VStr (単語 e) /\
    prop o "発音記号" = written (発音記号 e) VStr /\
    prop o "品詞" = written (品詞 e) strings /\
    prop o "意味" = strings (意味 e) /\
    prop o "語源" = written (語源 e) VStr /\
    prop o "コロケーション" = written (コロケーション e) strings /\
    prop o "例文" = written (例文 e) (fun l => VArr (map example_to_json l)) /\
    prop o "CEFR" = written (CEFR e) VStr /\
    prop o "類義語" = written (類義語 e) strings /\
    prop o "出典URL" = written (出典URL e) VStr.
Proof.
  eexists. split; [reflexivity |].
  destruct e as [w f2 f3 f4 f5 f6 f7 f8 f9 f10].
  destruct f2, f3, f5, f6, f7, f8, f9, f10; repeat split; reflexivity.
Qed.

Lemma z_optional_written_string (x : option string) :
  z_optional z_string (written x VStr) = Some x.
Proof. destruct x; reflexivity. Qed.

Lemma z_optional_written_strings (x : option (list string)) :
  z_optional (z_array z_string) (written x strings) = Some x.
Proof.
  destruct x as [l |]; [| reflexivity].
  unfold written, strings, z_optional, z_array. rewrite parse_items_strings. reflexivity.
Qed.

(** [Schema] on an entry written as JSON: the entry, when its item counts
    are the ones the schema asks for. *)
Lemma Schema_to_json (e : Entry) :
  Schema (to_json e)
  = if ((1 <=? length (意味 e))%nat
        && match 例文 e with
           | Some l => (1 <=? length l)%nat && (length l <=? 3)%nat
           | None => true
           end)%bool
    then Some e else None.
Proof.
  destruct (to_json_props e)
    as (o & -> & H1 & H2 & H3 & H4 & H5 & H6 & H7 & H8 & H9 & H10).
  unfold Schema, z_entry.
  rewrite H1, H2, H3, H4, H5, H6, H7, H8, H9, H10.
  rewrite !z_optional_written_string, !z_optional_written_strings.
  cbn [z_string].
  unfold z_min at 1, z_array at 1, strings at 1. rewrite parse_items_strings.
  destruct (1 <=? length (意味 e))%nat; [| reflexivity].
  destruct (例文 e) as [l |] eqn:Hexamples.
  - unfold written, z_optional, z_max, z_min, z_array.
    rewrite parse_items_examples.
    destruct (1 <=? length l)%nat; [| reflexivity].
    destruct (length l <=? 3)%nat; [| reflexivity].
    destruct e; simpl in *; subst; reflexivity.
  - destruct e; simpl in *; subst; reflexivity.
Qed.

(** Round trip.  An entry written as JSON and parsed comes back as it was,
    exactly when it has at least one meaning and, if it has examples, between
    1 and 3 of them; otherwise [parse] throws a [ZodError]. *)
Theorem Schema_round_trip (e : Entry) :
  (parse Schema (to_json e) = Ok e <-> well_counted e) /\
  (~ well_counted e -> parse Schema (to_json e) = Throw ZodError).
Proof.
  unfold parse, well_counted. rewrite Schema_to_json.
  destruct (Nat.leb_spec 1 (length (意味 e))) as [Hmeanings | Hmeanings];
    [destruct (例文 e) as [l |];
       [destruct (Nat.leb_spec 1 (length l)) as [Hlo | Hlo];
        destruct (Nat.leb_spec (length l) 3) as [Hhi | Hhi] |] |];
    cbn [andb].
  (* the counts are right *)
  all: try (split; [split; [intros _ | reflexivity] | intros Hno; exfalso; apply Hno];
            (split; [exact Hmeanings |]);
            intros l1 Hl1; first [discriminate Hl1 | injection Hl1 as <-; lia]).
  (* a count is wrong *)
  all: split; [split; [discriminate |] | reflexivity];
    intros [Hcount1 Hcount2]; try specialize (Hcount2 _ eq_refl); lia.
Qed.

Lemma Schema_round_trip_witness :
  parse Schema (to_json ubiquitous) = Ok ubiquitous.
Proof.
  apply (proj1 (Schema_round_trip ubiquitous)).
  split; [simpl; lia | discriminate].
Defined.

Lemma z_optional_url_weaken (is_url : string -> bool) (v : value) (x : option string) :
  z_optional (z_url is_url z_string) v = Some x -> z_optional z_string v = Some x.
Proof.
  unfold z_optional, z_url. destruct v; try discriminate; try (intros H; exact H).
  simpl. destruct (is_url s); [intros H; exact H | discriminate].
Qed.

Lemma z_optional_url_check (is_url : string -> bool) (v : value) (x : option string) :
  z_optional z_string v = Some x ->
  z_optional (z_url is_url z_string) v
  = match x with
    | Some s => if is_url s then Some x else None
    | None => Some None
    end.
Proof.
  unfold z_optional, z_url. destruct v; try discriminate;
    intros Hx; injection Hx as <-; simpl; try destruct (is_url _); reflexivity.
Qed.

(** An entry is rebuilt from its fields. *)
Lemma z_entry_rebuild (url_type1 url_type2 : ZodType (option string)) o e :
  z_entry url_type1 (VObj o) = Some e ->
  url_type2 (prop o "出典URL") = Some (出典URL e) ->
  z_entry url_type2 (VObj o) = Some e.
Proof.
  intros He Hurl.
  apply z_entry_fields in He as (H1 & H2 & H3 & H4 & H5 & H6 & H7 & H8 & H9 & _).
  unfold z_entry. rewrite H1, H2, H3, H4, H5, H6, H7, H8, H9, Hurl.
  destruct e; reflexivity.
Qed.

(** What [webhook.ts] accepts, [server.js] accepts unless the URL check
    refuses the source URL. *)
Lemma parse_dist_of_parse (is_url : string -> bool) (candidate : value) (e : Entry) :
  parse Schema candidate = Ok e ->
  parse (Schema_dist is_url) candidate
  = match 出典URL e with
    | Some s => if is_url s then Ok e else Throw ZodError
    | None => Ok e
    end.
Proof.
  unfold parse, Schema, Schema_dist. intros Hparse.
  destruct (z_entry (z_optional z_string) candidate) as [e1 |] eqn:He;
    [| discriminate].
  injection Hparse as ->. destruct candidate; try discriminate.
  pose proof He as Hfields.
  apply z_entry_fields in Hfields as (H1 & H2 & H3 & H4 & H5 & H6 & H7 & H8 & H9 & Hurl).
  apply (z_optional_url_check is_url) in Hurl.
  destruct (出典URL e) as [s |] eqn:Hs.
  - destruct (is_url s) eqn:Hcheck.
    + rewrite (z_entry_rebuild _ _ _ _ He); [reflexivity |].
      rewrite Hs. exact Hurl.
    + unfold z_entry. rewrite H1, H2, H3, H4, H5, H6, H7, H8, H9, Hurl. reflexivity.
  - rewrite (z_entry_rebuild _ _ _ _ He); [reflexivity |].
    rewrite Hs. exact Hurl.
Qed.

(** The two builds.  What [Schema] of [src/dist/server.js] accepts,
    [Schema] of [src/api/webhook.ts] accepts too, with the same entry; and
    what [webhook.ts] accepts, [server.js] accepts with the same entry
    unless the entry has a source URL that the URL check refuses, in which case
    it throws a [ZodError]. *)
Theorem Schema_builds_agree
  (is_url : string -> bool) (candidate : value) (e : Entry) :
  (parse (Schema_dist is_url) candidate = Ok e -> parse Schema candidate = Ok e) /\
  (parse Schema candidate = Ok e ->
   parse (Schema_dist is_url) candidate
   = match 出典URL e with
     | Some s => if is_url s then Ok e else Throw ZodError
     | None => Ok e
     end).
Proof.
  split; [| apply parse_dist_of_parse].
  unfold parse, Schema, Schema_dist. intros Hparse.
  destruct (z_entry _ candidate) as [e1 |] eqn:He; [| discriminate].
  injection Hparse as ->. destruct candidate; try discriminate.
  rewrite (z_entry_rebuild _ (z_optional z_string) _ _ He); [reflexivity |].
  apply z_entry_fields in He as (_ & _ & _ & _ & _ & _ & _ & _ & _ & Hurl).
  exact (z_optional_url_weaken _ _ _ Hurl).
Qed.

Lemma Schema_builds_agree_witness :
  parse (Schema_dist (fun s => negb (String.eqb s "not a url")))
        (VObj [("単語", VStr "ubiquitous");
               ("意味", VArr [VStr "at or in all places"])])
  = Ok ubiquitous.
Proof.
  apply (proj2 (Schema_builds_agree (fun s => negb (String.eqb s "not a url"))
                  (VObj [("単語", VStr "ubiquitous");
                         ("意味", VArr [VStr "at or in all places"])])
                  ubiquitous)).
  reflexivity.
Defined.

(** ** buildEntry: giving up, trying again, and what it calls *)

(** Three failed attempts with the default arguments. *)
Lemma retry_default_gives_up {T} (fn : M T) (error : exn) (attempt : Trace) (tr : Trace) :
  (forall tr1, fn tr1 = (Throw error, tr1 ++ attempt)) ->
  retry_default fn tr = (Throw error, tr ++ three_attempts attempt error).
Proof.
  intros Hfn. unfold retry_default, retry, three_attempts.
  do 3 (rewrite retry_loop_step, Hfn; simpl).
  rewrite <- !app_assoc. reflexivity.
Qed.

(** The history of one attempt of [buildEntry]: the request, unless the
    client could not be made. *)
Lemma buildEntry_attempt_history (env : Env) (schema : ZodType Entry) (word : string)
      (tr : Trace) :
  (new_OpenAI env (OPENAI_API_KEY env) = Ok tt ->
   snd (buildEntry_attempt env schema word tr)
   = tr ++ [ChatCompletionsCreate (completion_request env word)]) /\
  (forall error,
      new_OpenAI env (OPENAI_API_KEY env) = Throw error ->
      buildEntry_attempt env schema word tr = (Throw error, tr)).
Proof.
  unfold buildEntry_attempt, bind, lift, call, throw. split.
  - intros ->.
    destruct (chat_completions_create env _) as [[answer |] | error];
      try reflexivity.
    destruct (truthy answer); [| reflexivity].
    destruct (JSON_parse env answer) as [candidate | error]; reflexivity.
  - intros error ->. reflexivity.
Qed.

(** When every attempt fails in the same way, [buildEntry] gives up after
    three attempts, 1000 ms and 2000 ms apart, and throws that error as it is:
    the client's error without any request when the OpenAI client cannot be
    made; the transport's error after three requests when every request is
    refused; "No response from OpenAI" after three requests when the model
    never gives content (none, or the empty string). *)
Theorem buildEntry_gives_up (env : Env) (word : string) (tr : Trace) :
  (forall error,
      new_OpenAI env (OPENAI_API_KEY env) = Throw error ->
      buildEntry env word tr = (Throw error, tr ++ three_attempts [] error)) /\
  (new_OpenAI env (OPENAI_API_KEY env) = Ok tt ->
   (forall error,
       (forall history, chat_completions_create env history = Throw error) ->
       buildEntry env word tr
       = (Throw error,
          tr ++ three_attempts [ChatCompletionsCreate (completion_request env word)]
                               error)) /\
   ((forall history, exists content,
        chat_completions_create env history = Ok content /\
        truthy_opt content = false) ->
    buildEntry env word tr
    = (Throw (Error "No response from OpenAI"),
       tr ++ three_attempts [ChatCompletionsCreate (completion_request env word)]
                            (Error "No response from OpenAI")))).
Proof.
  split; [| intros Hclient; split].
  - intros error Hclient. unfold buildEntry. apply retry_default_gives_up.
    intros tr1. rewrite app_nil_r.
    apply (buildEntry_attempt_history env Schema word tr1). exact Hclient.
  - intros error Hrefused. unfold buildEntry. apply retry_default_gives_up.
    intros tr1. unfold buildEntry_attempt, bind, lift, call.
    rewrite Hclient, Hrefused. reflexivity.
  - intros Hsilent. unfold buildEntry. apply retry_default_gives_up.
    intros tr1. unfold buildEntry_attempt, bind, lift, call, throw.
    rewrite Hclient.
    destruct (Hsilent (tr1 ++ [ChatCompletionsCreate (completion_request env word)]))
      as (content & -> & Hfalsy).
    destruct content as [answer |]; [| reflexivity].
    simpl in Hfalsy. rewrite Hfalsy. reflexivity.
Qed.

Lemma buildEntry_gives_up_witness :
  buildEntry silent_model "ubiquitous" []
  = (Throw (Error "No response from OpenAI"),
     [ ChatCompletionsCreate (completion_request silent_model "ubiquitous");
       ConsoleWarn 1 1000 (Error "No response from OpenAI"); Sleep 1000;
       ChatCompletionsCreate (completion_request silent_model "ubiquitous");
       ConsoleWarn 2 2000 (Error "No response from OpenAI"); Sleep 2000;
       ChatCompletionsCreate (completion_request silent_model "ubiquitous") ]).
Proof.
  apply (proj2 (proj2 (buildEntry_gives_up silent_model "ubiquitous" []) eq_refl)).
  intros history. exists None. split; reflexivity.
Defined.

(** An answer that does not validate is an error like any other: when the
    first answer is refused by [JSON.parse] or by [Schema.parse] and the second
    validates, [buildEntry] returns the second entry after two requests and
    one sleep of 1000 ms, having logged the first error. *)
Theorem buildEntry_retries_invalid_answer
  (env : Env) (word : string) (tr : Trace)
  (answer1 answer2 : string) (error : exn) (e : Entry) :
  new_OpenAI env (OPENAI_API_KEY env) = Ok tt ->
  truthy answer1 = true -> truthy answer2 = true ->
  chat_completions_create env
    (tr ++ [ChatCompletionsCreate (completion_request env word)])
  = Ok (Some answer1) ->
  validate env answer1 = Throw error ->
  chat_completions_create env
    (tr ++ [ ChatCompletionsCreate (completion_request env word);
             ConsoleWarn 1 1000 error; Sleep 1000;
             ChatCompletionsCreate (completion_request env word) ])
  = Ok (Some answer2) ->
  validate env answer2 = Ok e ->
  buildEntry env word tr
  = (Ok e,
     tr ++ [ ChatCompletionsCreate (completion_request env word);
             ConsoleWarn 1 1000 error; Sleep 1000;
             ChatCompletionsCreate (completion_request env word) ]).
Proof.
  intros Hclient Htruthy1 Htruthy2 Hanswer1 Hinvalid Hanswer2 Hvalid.
  assert (Hattempt : forall tr1 answer,
             chat_completions_create env
               (tr1 ++ [ChatCompletionsCreate (completion_request env word)])
             = Ok (Some answer) ->
             truthy answer = true ->
             buildEntry_attempt env Schema word tr1
             = (validate env answer,
                tr1 ++ [ChatCompletionsCreate (completion_request env word)])).
  { intros tr1 answer Hanswer Htruthy.
    unfold buildEntry_attempt, bind, lift, call, validate.
    rewrite Hclient, Hanswer, Htruthy.
    destruct (JSON_parse env answer) as [candidate | error1]; reflexivity. }
  unfold buildEntry, retry_default, retry.
  rewrite retry_loop_step, (Hattempt tr answer1 Hanswer1 Htruthy1), Hinvalid. simpl.
  rewrite retry_loop_step. simpl.
  rewrite <- !app_assoc in *. simpl app in *.
  rewrite (Hattempt _ answer2); [| rewrite <- app_assoc; exact Hanswer2 | exact Htruthy2].
  rewrite Hvalid, <- app_assoc. reflexivity.
Qed.

Lemma buildEntry_retries_invalid_answer_witness :
  buildEntry second_answer_valid "ubiquitous" []
  = (Ok ubiquitous,
     [ ChatCompletionsCreate (completion_request second_answer_valid "ubiquitous");
       ConsoleWarn 1 1000 (SyntaxError "Unexpected token"); Sleep 1000;
       ChatCompletionsCreate (completion_request second_answer_valid "ubiquitous") ]).
Proof.
  apply (buildEntry_retries_invalid_answer second_answer_valid "ubiquitous" []
           "Sure! Here is the entry." ubiquitous_answer
           (SyntaxError "Unexpected token") ubiquitous);
    reflexivity.
Defined.

Lemma retry_sleeps {T} (fn : M T) (maxRetries delay : Z) :
  adds_at_most is_Sleep 0 fn ->
  adds_at_most is_Sleep (Z.to_nat maxRetries - 1) (retry fn (inject_Z maxRetries) delay).
Proof.
  intros Hfn tr. unfold retry.
  destruct (retry_loop_sleeps fn maxRetries 0 delay tr Hfn) as (ext & Htr & Hext).
  rewrite Z.sub_0_r in Hext.
  destruct (retry_loop fn (inject_Z maxRetries) 0 delay tr) as [[v | error |] tr1];
    simpl in Htr; subst tr1; exists ext; split; (reflexivity || assumption).
Qed.

(** One extension of the history, described three ways. *)
Lemma appended_facts {A} (m : M A) (P : Effect -> Prop) (p q : Effect -> bool)
      (k l : nat) (tr : Trace) :
  appends P m -> adds_at_most p k m -> adds_at_most q l m ->
  exists ext,
    snd (m tr) = tr ++ ext /\ Forall P ext /\
    (count p ext <= k)%nat /\ (count q ext <= l)%nat.
Proof.
  intros HP Hp Hq.
  destruct (HP tr) as (ext & Htr & Hext).
  destruct (Hp tr) as (ext1 & Htr1 & Hext1).
  destruct (Hq tr) as (ext2 & Htr2 & Hext2).
  rewrite Htr in Htr1, Htr2.
  apply appended_unique in Htr1, Htr2. subst ext1 ext2.
  exists ext. repeat split; assumption.
Qed.

Lemma buildEntry_attempt_adds (env : Env) (schema : ZodType Entry) (word : string)
      (tr : Trace) :
  snd (buildEntry_attempt env schema word tr) = tr ++ [] \/
  snd (buildEntry_attempt env schema word tr)
  = tr ++ [ChatCompletionsCreate (completion_request env word)].
Proof.
  destruct (buildEntry_attempt_history env schema word tr) as [Hmade Hrefused].
  destruct (new_OpenAI env (OPENAI_API_KEY env)) as [[] | error].
  - right. apply Hmade. reflexivity.
  - left. rewrite (Hrefused error eq_refl), app_nil_r. reflexivity.
Qed.

(** Whatever the services answer, [buildEntry] adds to the history nothing
    but requests for the word it was given, warnings and sleeps: at most 3
    requests and at most 2 sleeps, and no call to Notion or LINE. *)
Theorem buildEntry_calls (env : Env) (word : string) (tr : Trace) :
  exists ext,
    snd (buildEntry env word tr) = tr ++ ext /\
    Forall (build_effect env word) ext /\
    (count is_ChatCompletionsCreate ext <= 3)%nat /\
    (count is_Sleep ext <= 2)%nat.
Proof.
  unfold buildEntry, retry_default.
  apply (appended_facts _ (build_effect env word) is_ChatCompletionsCreate is_Sleep
           (Z.to_nat 3 * 1) (Z.to_nat 3 - 1)).
  - apply appends_retry.
    + intros attempt delay error. right; left. reflexivity.
    + intros ms. right; right. reflexivity.
    + intros tr1.
      destruct (buildEntry_attempt_adds env Schema word tr1) as [-> | ->];
        eexists; (split; [reflexivity |]);
        [apply Forall_nil | apply Forall_cons; [left; reflexivity | apply Forall_nil]].
  - apply retry_adds; try reflexivity. intros tr1.
    destruct (buildEntry_attempt_adds env Schema word tr1) as [-> | ->];
      eexists; (split; [reflexivity |]); unfold count; simpl; lia.
  - apply (retry_sleeps _ 3). intros tr1.
    destruct (buildEntry_attempt_adds env Schema word tr1) as [-> | ->];
      eexists; (split; [reflexivity |]); unfold count; simpl; lia.
Qed.

(** ** saveToNotion: what it calls, what it sends, and the page it repeats *)

Lemma saveToNotion_attempt_adds (env : Env) (e : Entry) (tr : Trace) :
  snd (saveToNotion_attempt env props e tr)
  = tr ++ [PagesCreate (page_request env (props e))] \/
  exists block_id examples,
    例文 e = Some examples /\
    snd (saveToNotion_attempt env props e tr)
    = tr ++ [ PagesCreate (page_request env (props e));
              BlocksChildrenAppend (append_request block_id examples) ].
Proof.
  unfold saveToNotion_attempt, bind, call, lift, ret.
  destruct (pages_create env _) as [page | error]; [| left; reflexivity].
  destruct (例文 e) as [[| s rest] |]; try (left; reflexivity).
  destruct (page_id page) as [block_id | error]; [| left; reflexivity].
  right. exists block_id, (s :: rest). split; [reflexivity |].
  simpl. rewrite <- app_assoc. reflexivity.
Qed.

(** Whatever the services answer, [saveToNotion] adds to the history
    nothing but creations of the entry's page, appends of the entry's examples,
    warnings and sleeps: at most 3 page creations, at most 3 appends and at
    most 2 sleeps, and no call to OpenAI or LINE. *)
Theorem saveToNotion_calls (env : Env) (e : Entry) (tr : Trace) :
  exists ext,
    snd (saveToNotion env e tr) = tr ++ ext /\
    Forall (save_effect env e) ext /\
    (count is_PagesCreate ext <= 3)%nat /\
    (count is_BlocksChildrenAppend ext <= 3)%nat /\
    (count is_Sleep ext <= 2)%nat.
Proof.
  assert (Hattempt : forall (p : Effect -> bool) tr1,
             p (PagesCreate (page_request env (props e))) = false \/
             (forall r, p (BlocksChildrenAppend r) = false) ->
             exists ext,
               snd (saveToNotion_attempt env props e tr1) = tr1 ++ ext /\
               Forall (save_effect env e) ext /\
               (count p ext <= 1)%nat).
  { intros p tr1 Hp.
    destruct (saveToNotion_attempt_adds env e tr1)
      as [-> | (block_id & examples & Hexamples & ->)];
      eexists; (split; [reflexivity |]); split.
    - apply Forall_cons; [left; reflexivity | apply Forall_nil].
    - unfold count. simpl. destruct (p _); simpl; lia.
    - apply Forall_cons; [left; reflexivity |].
      apply Forall_cons; [| apply Forall_nil].
      right; left. exists block_id, examples. split; [exact Hexamples | reflexivity].
    - unfold count. simpl. destruct Hp as [-> | ->].
      + destruct (p _); simpl; lia.
      + destruct (p _); simpl; lia. }
  assert (Hcounted : forall p : Effect -> bool,
             (forall attempt delay error, p (ConsoleWarn attempt delay error) = false) ->
             (forall ms, p (Sleep ms) = false) ->
             p (PagesCreate (page_request env (props e))) = false \/
             (forall r, p (BlocksChildrenAppend r) = false) ->
             adds_at_most p 3 (saveToNotion env e)).
  { intros p Hwarn Hsleep Hp. unfold saveToNotion.
    destruct (notion env).
    - apply (retry_adds _ 3 p 1); try assumption.
      intros tr1. destruct (Hattempt p tr1 Hp) as (ext & Htr & _ & Hext).
      exists ext. split; assumption.
    - intros tr1. exists []. rewrite app_nil_r.
      split; [reflexivity | unfold count; simpl; lia]. }
  assert (Hkind : appends (save_effect env e) (saveToNotion env e)).
  { unfold saveToNotion. destruct (notion env); [| apply appends_throw].
    apply appends_retry.
    - intros attempt delay error. right; right; left. reflexivity.
    - intros ms. right; right; right. reflexivity.
    - intros tr1. destruct (Hattempt is_Sleep tr1 (or_introl eq_refl))
        as (ext & Htr & Hext & _).
      exists ext. split; assumption. }
  assert (Hsleeps : adds_at_most is_Sleep 2 (saveToNotion env e)).
  { unfold saveToNotion. destruct (notion env).
    - apply (retry_sleeps _ 3). intros tr1.
      destruct (saveToNotion_attempt_adds env e tr1)
        as [-> | (block_id & examples & _ & ->)];
        eexists; (split; [reflexivity |]); unfold count; simpl; lia.
    - intros tr1. exists []. rewrite app_nil_r.
      split; [reflexivity | unfold count; simpl; lia]. }
  destruct (appended_facts _ _ is_PagesCreate is_BlocksChildrenAppend 3 3 tr Hkind
              (Hcounted is_PagesCreate ltac:(reflexivity) ltac:(reflexivity)
                 (or_intror (fun _ => eq_refl)))
              (Hcounted is_BlocksChildrenAppend ltac:(reflexivity) ltac:(reflexivity)
                 (or_introl eq_refl)))
    as (ext & Htr & Hext & Hpages & Happends).
  destruct (Hsleeps tr) as (ext1 & Htr1 & Hext1).
  rewrite Htr in Htr1. apply appended_unique in Htr1. subst ext1.
  exists ext. repeat split; assumption.
Qed.

(** A failed block append repeats the page.  When the page is created and
    the append of the examples fails, the next attempt creates the page again
    before it appends: after one such failure the database holds two pages
    for the entry, the first without examples. *)
Theorem saveToNotion_repeats_page
  (env : Env) (e : Entry) (s : ExampleSentence) (rest : list ExampleSentence)
  (tr : Trace) (page1 page2 id1 id2 : value) (error : exn) :
  notion env = true ->
  例文 e = Some (s :: rest) ->
  pages_create env (tr ++ [PagesCreate (page_request env (props e))]) = Ok page1 ->
  page_id page1 = Ok id1 ->
  blocks_children_append env
    (tr ++ [ PagesCreate (page_request env (props e));
             BlocksChildrenAppend (append_request id1 (s :: rest)) ])
  = Throw error ->
  pages_create env
    (tr ++ [ PagesCreate (page_request env (props e));
             BlocksChildrenAppend (append_request id1 (s :: rest));
             ConsoleWarn 1 1000 error; Sleep 1000;
             PagesCreate (page_request env (props e)) ])
  = Ok page2 ->
  page_id page2 = Ok id2 ->
  blocks_children_append env
    (tr ++ [ PagesCreate (page_request env (props e));
             BlocksChildrenAppend (append_request id1 (s :: rest));
             ConsoleWarn 1 1000 error; Sleep 1000;
             PagesCreate (page_request env (props e));
             BlocksChildrenAppend (append_request id2 (s :: rest)) ])
  = Ok tt ->
  saveToNotion env e tr
  = (Ok tt,
     tr ++ [ PagesCreate (page_request env (props e));
             BlocksChildrenAppend (append_request id1 (s :: rest));
             ConsoleWarn 1 1000 error; Sleep 1000;
             PagesCreate (page_request env (props e));
             BlocksChildrenAppend (append_request id2 (s :: rest)) ]).
Proof.
  intros Hnotion Hexamples Hpage1 Hid1 Hfail Hpage2 Hid2 Hdone.
  assert (Hattempt : forall tr1 page block_id,
             pages_create env (tr1 ++ [PagesCreate (page_request env (props e))])
             = Ok page ->
             page_id page = Ok block_id ->
             saveToNotion_attempt env props e tr1
             = (blocks_children_append env
                  (tr1 ++ [ PagesCreate (page_request env (props e));
                            BlocksChildrenAppend (append_request block_id (s :: rest)) ]),
                tr1 ++ [ PagesCreate (page_request env (props e));
                         BlocksChildrenAppend (append_request block_id (s :: rest)) ])).
  { intros tr1 page block_id Hpage Hid.
    unfold saveToNotion_attempt, bind, call, lift.
    rewrite Hpage, Hexamples, Hid, <- app_assoc. reflexivity. }
  unfold saveToNotion, retry_default, retry. rewrite Hnotion.
  rewrite retry_loop_step, (Hattempt tr page1 id1 Hpage1 Hid1), Hfail. simpl.
  rewrite retry_loop_step. simpl.
  rewrite <- !app_assoc. simpl app.
  rewrite (Hattempt _ page2 id2);
    [| rewrite <- app_assoc; exact Hpage2 | exact Hid2].
  rewrite <- !app_assoc. simpl app. rewrite Hdone. reflexivity.
Qed.

Lemma saveToNotion_repeats_page_witness :
  count is_PagesCreate
    (snd (saveToNotion first_append_fails
            (with_例文 (Some (two_examples "It is ubiquitous." "それは普遍的だ。"
                                           "Ubiquitous computing.")) ubiquitous) []))
  = 2%nat.
Proof.
  rewrite (saveToNotion_repeats_page first_append_fails
             (with_例文 (Some (two_examples "It is ubiquitous." "それは普遍的だ。"
                                            "Ubiquitous computing.")) ubiquitous)
             {| 英 := "It is ubiquitous."; 日 := Some "それは普遍的だ。" |}
             [{| 英 := "Ubiquitous computing."; 日 := None |}]
             [] (VObj [("id", VStr "page-1")]) (VObj [("id", VStr "page-1")])
             (VStr "page-1") (VStr "page-1") (ServiceError "502")
             eq_refl eq_refl eq_refl eq_refl eq_refl eq_refl eq_refl eq_refl).
  reflexivity.
Defined.

(** Which properties reach Notion.  Of the nine properties of [props], the
    request keeps the title and the meanings always, a string property when
    the field is a non-empty string, and a list property whenever the field
    is present, an empty list included. *)
Theorem sent_properties (e : Entry) :
  keys (serialized (props e))
  = "Vocabulary"
    :: when (truthy_opt (発音記号 e)) "発音記号"
    ++ when (present (品詞 e)) "品詞"
    ++ "意味"
    :: when (truthy_opt (語源 e)) "語源"
    ++ when (present (コロケーション e)) "コロケーション"
    ++ when (truthy_opt (CEFR e)) "CEFR"
    ++ when (present (類義語 e)) "類義語"
    ++ when (truthy_opt (出典URL e)) "出典URL".
Proof.
  destruct e as [w f2 f3 f4 f5 f6 f7 f8 f9 f10].
  unfold props, page_properties, if_string, if_array, truthy_opt, present, when.
  cbn [発音記号 品詞 意味 語源 コロケーション CEFR 類義語 出典URL 単語].
  destruct f2 as [s2 |]; [destruct (truthy s2) |];
    (destruct f5 as [s5 |]; [destruct (truthy s5) |]);
    (destruct f8 as [s8 |]; [destruct (truthy s8) |]);
    (destruct f10 as [s10 |]; [destruct (truthy s10) |]);
    destruct f3, f6, f9; reflexivity.
Qed.

(** ** The dispatcher: what it passes over, what it replies *)









Lemma buildEntry_appends (P : Effect -> Prop) (env : Env) (word : string) :
  (forall effect, build_effect env word effect -> P effect) ->
  appends P (buildEntry env word).
Proof.
  intros HP. unfold buildEntry, retry_default. apply appends_retry.
  - intros attempt delay error. apply HP. right; left. reflexivity.
  - intros ms. apply HP. right; right. reflexivity.
  - intros tr.
    destruct (buildEntry_attempt_adds env Schema word tr) as [-> | ->];
      eexists; (split; [reflexivity |]);
      [apply Forall_nil | apply Forall_cons; [apply HP; left; reflexivity | apply Forall_nil]].
Qed.

Lemma saveToNotion_appends (P : Effect -> Prop) (env : Env) (e : Entry) :
  (forall effect, save_effect env e effect -> P effect) ->
  appends P (saveToNotion env e).
Proof.
  intros HP. unfold saveToNotion. destruct (notion env); [| apply appends_throw].
  unfold retry_default. apply appends_retry.
  - intros attempt delay error. apply HP. right; right; left. reflexivity.
  - intros ms. apply HP. right; right; right. reflexivity.
  - intros tr.
    destruct (saveToNotion_attempt_adds env e tr)
      as [-> | (block_id & examples & Hexamples & ->)];
      eexists; (split; [reflexivity |]).
    + apply Forall_cons; [apply HP; left; reflexivity | apply Forall_nil].
    + apply Forall_cons; [apply HP; left; reflexivity |].
      apply Forall_cons; [| apply Forall_nil].
      apply HP. right; left. exists block_id, examples.
      split; [exact Hexamples | reflexivity].
Qed.

Lemma build_effect_no_reply env word effect :
  build_effect env word effect -> is_ReplyMessage effect = false.
Proof.
  intros [-> | [Hwarn | Hsleep]]; [reflexivity | |]; destruct effect; try discriminate;
    reflexivity.
Qed.

Lemma save_effect_no_reply env e effect :
  save_effect env e effect -> is_ReplyMessage effect = false.
Proof.
  intros [-> | [(block_id & examples & _ & ->) | [Hwarn | Hsleep]]];
    try reflexivity; destruct effect; try discriminate; reflexivity.
Qed.

(** The [try] block adds nothing but logs, the calls of [buildEntry] and
    [saveToNotion], and, with a LINE client, replies. *)
Lemma processEvent_appends (P : Effect -> Prop) (env : Env) (event : value) :
  (forall effect, is_ReplyMessage effect = false -> P effect) ->
  (lineClient env = true -> forall token message, P (ReplyMessage token message)) ->
  appends P (processEvent env event).
Proof.
  intros Hother Hreply. unfold processEvent.
  apply appends_bind; [auto with appends | intros event_type].
  destruct (negb (same event_type "message")); [auto with appends |].
  apply appends_bind; [auto with appends | intros message].
  apply appends_bind; [auto with appends | intros message_type].
  destruct (negb (same message_type "text")); [auto with appends |].
  apply appends_bind; [auto with appends | intros text].
  apply appends_bind; [auto with appends | intros word].
  destruct (negb (truthy word)); [auto with appends |].
  apply appends_bind; [apply appends_emit, Hother; reflexivity | intros _].
  apply appends_bind.
  { apply buildEntry_appends. intros effect Heffect.
    apply Hother. exact (build_effect_no_reply _ _ _ Heffect). }
  intros entry.
  apply appends_bind; [apply appends_emit, Hother; reflexivity | intros _].
  apply appends_bind.
  { apply saveToNotion_appends. intros effect Heffect.
    apply Hother. exact (save_effect_no_reply _ _ _ Heffect). }
  intros _.
  apply appends_bind; [apply appends_emit, Hother; reflexivity | intros _].
  destruct (lineClient env); [| auto with appends].
  apply appends_bind; [auto with appends | intros replyToken].
  apply appends_call. apply Hreply. reflexivity.
Qed.

Lemma count_none (P : Effect -> Prop) (p : Effect -> bool) (ext : Trace) :
  (forall effect, P effect -> p effect = false) ->
  Forall P ext -> count p ext = 0%nat.
Proof.
  intros HP Hext. unfold count.
  induction Hext as [| effect ext Heffect _ IH]; [reflexivity |].
  simpl. rewrite (HP _ Heffect). exact IH.
Qed.

(** Without a LINE access token there is no client, and then no event makes
    the dispatcher reply, [null] included: neither a confirmation nor a
    failure notice is sent, whatever happens to the entry; and on every event
    but [null] the dispatcher completes. *)
Theorem no_client_no_reply (env : Env) (event : value) (tr : Trace) :
  lineClient env = false ->
  exists outcome ext,
    handleEventSafely env event tr = (outcome, tr ++ ext) /\
    count is_ReplyMessage ext = 0%nat /\
    (not_null event -> outcome = Ok tt).
Proof.
  intros Hnone.
  assert (Happends : appends (fun effect => is_ReplyMessage effect = false)
                             (handleEventSafely env event)).
  { unfold handleEventSafely. apply appends_try_catch.
    - apply processEvent_appends; [auto | rewrite Hnone; discriminate].
    - intros err. unfold onEventError.
      apply appends_bind; [apply appends_emit; reflexivity | intros _].
      apply appends_bind; [auto with appends | intros has_token].
      rewrite Hnone, andb_false_r. auto with appends. }
  destruct (Happends tr) as (ext & Htr & Hext).
  destruct (handleEventSafely env event tr) as [outcome tr1] eqn:Hrun.
  simpl in Htr. subst tr1.
  exists outcome, ext. split; [reflexivity |].
  split; [apply (count_none _ _ _ (fun _ H => H) Hext) |].
  intros Hevent.
  destruct (handleEventSafely_completes env event tr Hevent) as [tr1 Hdone].
  rewrite Hdone in Hrun. injection Hrun as <- _. reflexivity.
Qed.

(** [demo] without its LINE credentials. *)
Lemma no_client_no_reply_witness :
  exists outcome ext,
    handleEventSafely
      {| LINE_CHANNEL_SECRET := None; LINE_ACCESS_TOKEN := None;
         OPENAI_API_KEY := OPENAI_API_KEY demo; NOTION_TOKEN := NOTION_TOKEN demo;
         NOTION_DATABASE_ID := NOTION_DATABASE_ID demo; OPENAI_MODEL := None;
         JSON_parse := JSON_parse demo;
         zodToJsonSchema_Schema := zodToJsonSchema_Schema demo;
         new_OpenAI := new_OpenAI demo;
         chat_completions_create := chat_completions_create demo;
         pages_create := pages_create demo;
         blocks_children_append := blocks_children_append demo;
         replyMessage := replyMessage demo |}
      (text_event "token-1" "ubiquitous") []
    = (outcome, [] ++ ext) /\
    count is_ReplyMessage ext = 0%nat /\
    (not_null (text_event "token-1" "ubiquitous") -> outcome = Ok tt).
Proof. apply no_client_no_reply. reflexivity. Defined.












(** ** The HTTP handler *)

Lemma not_not_null (event : value) :
  ~ not_null event -> event = VNull \/ event = VUndefined.
Proof.
  intros Hnot. destruct event; [right; reflexivity | left; reflexivity | | | | |];
    exfalso; apply Hnot; split; discriminate.
Qed.

(** A batch with a [null] in it is rejected. *)
Lemma Promise_all_null (env : Env) (evs : list value) (tr : Trace) :
  (exists event, In event evs /\ ~ not_null event) ->
  exists error tr1, Promise_all (map (handleEventSafely env) evs) tr = (Throw error, tr1).
Proof.
  intros (event & Hin & Hnot).
  apply in_split in Hin as (before & after & ->).
  rewrite map_app. cbn [map]. apply Promise_all_rejected.
  intros tr1.
  destruct (not_not_null event Hnot) as [-> | ->]; eexists _, _; reflexivity.
Qed.

(** The handler always answers and never throws: 405 with the error body and
    nothing else done when the method is not POST; 500 with the error logged
    when the body has no array of events; 200 with no body for every array of
    events without [null], whatever happens to the events; 500 for every
    array of events with a [null] in it. *)
Theorem handler_status (env : Env) (req : Request) (tr : Trace) :
  exists response tr1,
    handler env req tr = (Ok response, tr1) /\
    (method req <> "POST" ->
     response = {| status := 405;
                   json := Some (VObj [("error", VStr "Method not allowed")]) |} /\
     tr1 = tr) /\
    (method req = "POST" -> events req = None ->
     response = {| status := 500;
                   json := Some (VObj [("error", VStr "Internal server error")]) |} /\
     exists error, tr1 = tr ++ [ConsoleError "Webhook error:" error]) /\
    (method req = "POST" -> forall evs, events req = Some evs ->
     Forall not_null evs ->
     response = {| status := 200; json := None |}) /\
    (method req = "POST" -> forall evs, events req = Some evs ->
     (exists event, In event evs /\ ~ not_null event) ->
     response = {| status := 500;
                   json := Some (VObj [("error", VStr "Internal server error")]) |}).
Proof.
  unfold handler.
  destruct (String.eqb_spec (method req) "POST") as [Hpost | Hother]; cbn [negb].
  - destruct (events req) as [evs |].
    + unfold try_catch, bind, emit, ret.
      destruct (Promise_all (map (handleEventSafely env) evs) tr)
        as [[[] | error] tr1] eqn:Hall;
        (eexists; eexists; split; [reflexivity |]);
        (split; [intros Hno; contradiction |]);
        (split; [intros _ Hnone; discriminate |]); split;
        intros _ evs' Hevs Hnull; injection Hevs as <-; try reflexivity.
      * destruct (Promise_all_null env evs tr Hnull) as (error & tr2 & Hrejected).
        rewrite Hall in Hrejected. discriminate.
      * destruct (Promise_all_completes env evs tr Hnull) as [tr2 Hdone].
        rewrite Hall in Hdone. discriminate.
    + eexists; eexists. split; [reflexivity |].
      split; [intros Hno; contradiction |].
      split; [intros _ _; split; [reflexivity | eexists; reflexivity] |].
      split; intros _ evs Hsome; discriminate.
  - eexists; eexists. split; [reflexivity |].
    split; [intros _; split; reflexivity |].
    split; [intros Hpost; contradiction |].
    split; intros Hpost; contradiction.
Qed.

Lemma handler_status_witness :
  handler demo {| method := "GET"; events := None |} []
  = (Ok {| status := 405;
           json := Some (VObj [("error", VStr "Method not allowed")]) |}, []).
Proof.
  destruct (handler_status demo {| method := "GET"; events := None |} [])
    as (response & tr1 & -> & Hget & _).
  destruct (Hget ltac:(discriminate)) as [-> ->]. reflexivity.
Defined.

(** ** The older build *)

Lemma processEvent_dist_untyped env is_url schema_object (event : value) (tr : Trace) :
  untyped event -> processEvent_dist env is_url schema_object event tr = (Ok tt, tr).
Proof. destruct event; simpl; intros Huntyped; (contradiction || reflexivity). Qed.

Lemma handleEventSafely_dist_completes env is_url schema_object event tr :
  not_null event ->
  exists tr1,
    handleEventSafely_dist env is_url schema_object event tr = (Ok tt, tr1).
Proof.
  intros [Hnull Hundefined]. unfold handleEventSafely_dist, try_catch.
  destruct (processEvent_dist env is_url schema_object event tr)
    as [[[] | err] tr1] eqn:Hrun.
  - exists tr1. reflexivity.
  - destruct event;
      try (rewrite processEvent_dist_untyped in Hrun by exact I; discriminate);
      [contradiction | contradiction |].
    rewrite onEventError_completes. eexists; reflexivity.
Qed.

(** The route of [server.js] answers 200 for every array of events without
    [null], whatever happens to them; but a [null] among the events, or a
    body without an array of events, makes it throw, with no answer written,
    where the handler of [webhook.ts] answers 500. *)
Theorem webhook_dist_status
  (env : Env) (is_url : string -> bool) (schema_object : value) (tr : Trace) :
  (forall evs,
      Forall not_null evs ->
      exists tr1,
        webhook_dist env is_url schema_object (Some evs) tr
        = (Ok {| status := 200; json := None |}, tr1)) /\
  (exists error tr1,
      webhook_dist env is_url schema_object (Some [VNull]) tr = (Throw error, tr1) /\
      exists tr2,
        handler env {| method := "POST"; events := Some [VNull] |} tr
        = (Ok {| status := 500;
                 json := Some (VObj [("error", VStr "Internal server error")]) |},
           tr2)) /\
  (exists error,
      webhook_dist env is_url schema_object None tr = (Throw error, tr) /\
      handler env {| method := "POST"; events := None |} tr
      = (Ok {| status := 500;
               json := Some (VObj [("error", VStr "Internal server error")]) |},
         tr ++ [ConsoleError "Webhook error:" error])).
Proof.
  split; [| split].
  - intros evs Hevs. unfold webhook_dist, bind.
    assert (Hall : exists tr1,
               Promise_all (map (handleEventSafely_dist env is_url schema_object) evs) tr
               = (Ok tt, tr1)).
    { revert tr. induction Hevs as [| event evs Hevent _ IH]; intros tr; simpl.
      - exists tr. reflexivity.
      - destruct (handleEventSafely_dist_completes env is_url schema_object event tr
                    Hevent)
          as [tr1 ->].
        apply IH. }
    destruct Hall as [tr1 ->]. exists tr1. reflexivity.
  - eexists _, _. split; [reflexivity |]. eexists. reflexivity.
  - eexists. split; reflexivity.
Qed.

(** One attempt of a builder whose model always gives the same answer. *)
Lemma constant_answer_attempt (env : Env) (answer : string) (candidate : value) :
  new_OpenAI env (OPENAI_API_KEY env) = Ok tt ->
  (forall history, chat_completions_create env history = Ok (Some answer)) ->
  truthy answer = true ->
  JSON_parse env answer = Ok candidate ->
  (forall word tr,
      buildEntry_attempt env Schema word tr
      = (parse Schema candidate,
         tr ++ [ChatCompletionsCreate (completion_request env word)])) /\
  (forall is_url schema_object word tr,
      buildEntry_attempt_dist env is_url schema_object word tr
      = (parse (Schema_dist is_url) candidate,
         tr ++ [ChatCompletionsCreate (completion_request_dist env schema_object word)])).
Proof.
  intros Hclient Hanswer Htruthy Hjson. split; intros;
    unfold buildEntry_attempt, buildEntry_attempt_dist, bind, lift, call;
    rewrite Hclient, Hanswer, Htruthy, Hjson; reflexivity.
Qed.

(** The builds part on a source URL.  When the model keeps answering an
    entry whose source URL the URL check refuses, [buildEntry] of [webhook.ts]
    returns the entry at the first request, while [buildEntry] of [server.js]
    asks three times and gives up with the [ZodError]. *)
Theorem builds_differ_on_url
  (env : Env) (is_url : string -> bool) (schema_object : value)
  (word answer s : string) (candidate : value) (e : Entry) (tr : Trace) :
  new_OpenAI env (OPENAI_API_KEY env) = Ok tt ->
  (forall history, chat_completions_create env history = Ok (Some answer)) ->
  truthy answer = true ->
  JSON_parse env answer = Ok candidate ->
  parse Schema candidate = Ok e ->
  出典URL e = Some s -> is_url s = false ->
  buildEntry env word tr
  = (Ok e, tr ++ [ChatCompletionsCreate (completion_request env word)]) /\
  buildEntry_dist env is_url schema_object word tr
  = (Throw ZodError,
     tr ++ three_attempts
             [ChatCompletionsCreate (completion_request_dist env schema_object word)]
             ZodError).
Proof.
  intros Hclient Hanswer Htruthy Hjson Hparse Hurl Hrefused.
  destruct (constant_answer_attempt env answer candidate Hclient Hanswer Htruthy Hjson)
    as [Hts Hdist].
  split.
  - unfold buildEntry, retry_default, retry.
    rewrite retry_loop_step, Hts, Hparse. reflexivity.
  - unfold buildEntry_dist. apply retry_default_gives_up. intros tr1.
    rewrite Hdist, (parse_dist_of_parse is_url candidate e Hparse), Hurl, Hrefused.
    reflexivity.
Qed.

Lemma builds_differ_on_url_witness :
  fst (buildEntry (scripted bad_url_answer bad_url_candidate) "ubiquitous" [])
  = Ok (with_出典URL (Some "not a url") ubiquitous) /\
  fst (buildEntry_dist (scripted bad_url_answer bad_url_candidate)
         (fun s => negb (String.eqb s "not a url")) (VObj []) "ubiquitous" [])
  = Throw ZodError.
Proof.
  destruct (builds_differ_on_url (scripted bad_url_answer bad_url_candidate)
              (fun s => negb (String.eqb s "not a url")) (VObj [])
              "ubiquitous" bad_url_answer "not a url" bad_url_candidate
              (with_出典URL (Some "not a url") ubiquitous) []
              eq_refl (fun _ => eq_refl) eq_refl ltac:(vm_compute; reflexivity)
              eq_refl eq_refl eq_refl)
    as [-> ->].
  split; reflexivity.
Defined.
